(** * The interactive terminal demo of the Shuriken CLI documentation site

    A shallow embedding of [TerminalPreview] (src/components/Features.tsx,
    second module of the file): the command table [DEMO_COMMANDS], the
    handlers [handleKeyDown], [handleSuggestionClick], [executeCommand],
    [typewriterEffect] and [addLine], and the React state they update.

    Strings are JavaScript strings: finite sequences of UTF-16 code units.
    The asynchronous functions are cut at their [await]s: what runs between
    two awaits is one atomic transition, and the suspended rest of the
    function is a [Task] kept in the widget until its timer fires. *)

From Stdlib Require Import String Ascii.
From stdpp Require Import base decidable option numbers list.

Local Open Scope N_scope.

(** ** JavaScript strings *)

(** A string value: its UTF-16 code units, each below 65536. *)
Abbreviation str := (list N).

(** The code units of one code point (a surrogate pair above the BMP). *)
Definition codeUnits (cp : N) : str :=
  if cp <? 65536 then [cp]
  else [55296 + (cp - 65536) / 1024; 56320 + (cp - 65536) mod 1024].

(** Decoder for the literals of this file, which are written in UTF-8 as
    the source file is: [more] continuation bytes are still expected for the
    code point whose high bits are [cp]. *)
Fixpoint decodeUtf8 (more : nat) (cp : N) (bytes : list N) : str :=
  match bytes with
  | [] => []
  | b :: rest =>
      match more with
      | O =>
          if b <? 128 then b :: decodeUtf8 0 0 rest
          else if b <? 224 then decodeUtf8 1 (N.land b 31) rest
          else if b <? 240 then decodeUtf8 2 (N.land b 15) rest
          else decodeUtf8 3 (N.land b 7) rest
      | S O => codeUnits (cp * 64 + N.land b 63) ++ decodeUtf8 0 0 rest
      | S k => decodeUtf8 k (cp * 64 + N.land b 63) rest
      end
  end.

(** A string literal of the source. *)
Definition js (s : string) : str :=
  decodeUtf8 0 0 (N_of_ascii <$> list_ascii_of_string s).

(** A template literal that spans several lines: the lines, with a line
    feed between two of them. *)
Fixpoint template (ls : list string) : str :=
  match ls with
  | [] => []
  | [l] => js l
  | l :: ls' => js l ++ 10 :: template ls'
  end.

(** [WhiteSpace] and [LineTerminator] of ECMAScript: what [String.prototype.trim]
    strips and what the class [\s] of a regular expression matches. *)
Definition isWhiteSpace (c : N) : bool :=
  ((9 <=? c) && (c <=? 13)) || (c =? 32) || (c =? 160) || (c =? 5760)
  || ((8192 <=? c) && (c <=? 8202)) || (c =? 8232) || (c =? 8233)
  || (c =? 8239) || (c =? 8287) || (c =? 12288) || (c =? 65279).

Fixpoint trimStart (s : str) : str :=
  match s with
  | [] => []
  | c :: s' => if isWhiteSpace c then trimStart s' else s
  end.

Definition trimEnd (s : str) : str := rev (trimStart (rev s)).

(** [s.trim()] *)
Definition trim (s : str) : str := trimEnd (trimStart s).

(** [s.replace(/\s+/g, ' ')]: every maximal run of white space becomes one
    space; [inRun] says that the previous code unit was white space. *)
Fixpoint replaceRuns (inRun : bool) (s : str) : str :=
  match s with
  | [] => []
  | c :: s' =>
      if isWhiteSpace c
      then (if inRun then replaceRuns true s' else 32 :: replaceRuns true s')
      else c :: replaceRuns false s'
  end.

Definition replaceWhiteSpace (s : str) : str := replaceRuns false s.

(** [s.startsWith(p)] *)
Fixpoint startsWith (s p : str) {struct p} : bool :=
  match p, s with
  | [], _ => true
  | _ :: _, [] => false
  | a :: p', b :: s' => (a =? b) && startsWith s' p'
  end.

(** [s.split(sep)] for a separator of one code unit: never empty, and two
    adjacent separators give an empty token. *)
Fixpoint split (sep : N) (s : str) : list str :=
  match s with
  | [] => [[]]
  | c :: s' =>
      if c =? sep then [] :: split sep s'
      else match split sep s' with
           | w :: ws => (c :: w) :: ws
           | [] => [[c]]
           end
  end.

(** ASCII letters fold to lower case by adding 32. *)
Definition lowerAscii (c : N) : N :=
  if (65 <=? c) && (c <=? 90) then c + 32 else c.

Definition isAscii (c : N) : Prop := c < 128.

(** [String.prototype.toLowerCase] follows the Unicode case mappings, which
    depend on context and may change the length of a string; the handlers
    only rely on two facts, so the operation is an interface with these
    laws: ASCII text is folded letter by letter, and no mapping deletes a
    character. [asciiCaseFolding] is one implementation. *)
Class CaseFolding := {
  toLowerCase : str → str;
  toLowerCase_ascii :
    ∀ s, Forall isAscii s → toLowerCase s = lowerAscii <$> s;
  toLowerCase_empty : ∀ s, toLowerCase s = [] → s = []
}.

Definition asciiCaseFolding : CaseFolding :=
  {| toLowerCase := fmap lowerAscii;
     toLowerCase_ascii := λ s _, eq_refl;
     toLowerCase_empty := λ s, fmap_nil_inv lowerAscii s |}.

(** ** The data of the widget *)

Inductive LineType := input | output | error | info.

#[export] Instance LineType_eq_dec : EqDecision LineType.
Proof. solve_decision. Defined.

(** [interface TerminalLine]; [timestamp] is optional. *)
Record TerminalLine := {
  type : LineType;
  content : str;
  timestamp : option str
}.

(** A value of [DEMO_COMMANDS]. *)
Module Command.
Record t := { output : str; delay : N }.
End Command.

(** What is left of [executeCommand] at one of its two [await]s, to be run
    when the timer it waits for fires. *)
Inductive Task :=
| AfterLookupDelay (matchedCommand : option (str * Command.t)) (command : str)
    (* the 500 ms pause after the lookup *)
| AfterWordDelay (words : list str) (i : nat) (currentText timestamp : str)
    (delay : N).
    (* inside [typewriterEffect], the pause at the end of iteration [i] *)

(** The state hooks of [TerminalPreview], and the timers that are pending.
    [currentInput] is a string in the source; [None] is [undefined], which
    reading [commandHistory] out of range would store there, and which no
    reachable state holds ([wellFormed_reachable]). The theme flag
    [isDarkMode] takes no part in the terminal and is left out. *)
Record State := {
  lines : list TerminalLine;
  currentInput : option str;
  isProcessing : bool;
  commandHistory : list str;
  historyIndex : Z;
  timers : list Task
}.

Definition setLines (f : list TerminalLine → list TerminalLine) (w : State) :=
  {| lines := f (lines w); currentInput := currentInput w;
     isProcessing := isProcessing w; commandHistory := commandHistory w;
     historyIndex := historyIndex w; timers := timers w |}.

Definition setCurrentInput (v : option str) (w : State) :=
  {| lines := lines w; currentInput := v;
     isProcessing := isProcessing w; commandHistory := commandHistory w;
     historyIndex := historyIndex w; timers := timers w |}.

Definition setIsProcessing (b : bool) (w : State) :=
  {| lines := lines w; currentInput := currentInput w;
     isProcessing := b; commandHistory := commandHistory w;
     historyIndex := historyIndex w; timers := timers w |}.

Definition setCommandHistory (f : list str → list str) (w : State) :=
  {| lines := lines w; currentInput := currentInput w;
     isProcessing := isProcessing w; commandHistory := f (commandHistory w);
     historyIndex := historyIndex w; timers := timers w |}.

Definition setHistoryIndex (i : Z) (w : State) :=
  {| lines := lines w; currentInput := currentInput w;
     isProcessing := isProcessing w; commandHistory := commandHistory w;
     historyIndex := i; timers := timers w |}.

(** [await new Promise(resolve => setTimeout(resolve, ms))]: the rest of
    the function waits among the timers. *)
Definition await (rest : Task) (w : State) :=
  {| lines := lines w; currentInput := currentInput w;
     isProcessing := isProcessing w; commandHistory := commandHistory w;
     historyIndex := historyIndex w; timers := timers w ++ [rest] |}.

(** A timer that fired is pending no more. *)
Definition fired (n : nat) (w : State) :=
  {| lines := lines w; currentInput := currentInput w;
     isProcessing := isProcessing w; commandHistory := commandHistory w;
     historyIndex := historyIndex w; timers := delete n (timers w) |}.

(** [a[i]] for a number [i]: [undefined] outside the array. *)
Definition index {A} (a : list A) (i : Z) : option A :=
  if (i <? 0)%Z then None else a !! Z.to_nat i.

(** The first lines: [t0] and [t1] are what [formatTime()] returned. *)
Definition initial (t0 t1 : str) : State :=
  {| lines :=
       [ {| type := info;
            content := js "🥷 Welcome to Shuriken CLI Interactive Demo";
            timestamp := Some t0 |};
         {| type := info;
            content := js "Type " ++ 34 :: js "help" ++ 34 ::
                       js " to see available commands, or try the suggestions below.";
            timestamp := Some t1 |} ];
     currentInput := Some [];
     isProcessing := false;
     commandHistory := [];
     historyIndex := -1;
     timers := [] |}.

Definition SUGGESTIONS : list str :=
  [ js "help"; js "ui-kit setup"; js "jarvis component button";
    js "backend-tools migrate"; js "version"; js "clear" ].

Definition DEMO_COMMANDS : list (str * Command.t) := [
  (js "help",
   {| Command.output := template [
       "🥷 SHURIKEN CLI — Available Packages";
       "";
       "── UI-KIT ─────────────────────";
       "  setup       Install and configure UI components";
       "  update      Migrate UI components to newer versions";
       "  component   Generate a new UI component";
       "";
       "── JARVIS ─────────────────────";
       "  setup       Install and configure AI tools";
       "  component   Generate a React component template";
       "  deploy      Deploy application to production";
       "";
       "── BACKEND-TOOLS ──────────────";
       "  setup       Setup backend development environment";
       "  migrate     Run database migrations";
       "  seed        Seed database with test data";
       "";
       "Type 'shuriken <package> <command>' to run a command";
       "Type 'clear' to clear the terminal"]%string;
      Command.delay := 50 |});
  (js "ui-kit setup",
   {| Command.output := template [
       "🎯 Setting up UI-KIT package...";
       "";
       "✅ Installing dependencies...";
       "✅ Configuring Tailwind CSS...";
       "✅ Setting up component library...";
       "✅ Creating example components...";
       "✅ Running initial build...";
       "";
       "🚀 UI-KIT setup completed successfully!";
       "   ";
       "📁 Components available in: ./packages/ui-kit/components";
       "📖 Documentation: ./packages/ui-kit/README.md"]%string;
      Command.delay := 80 |});
  (js "jarvis component button",
   {| Command.output := template [
       "🤖 Generating React component: Button";
       "";
       "✅ Created ./src/components/Button/Button.tsx";
       "✅ Created ./src/components/Button/Button.module.css";
       "✅ Created ./src/components/Button/Button.test.tsx";
       "✅ Created ./src/components/Button/index.ts";
       "✅ Updated ./src/components/index.ts";
       "";
       "🎉 Component 'Button' generated successfully!"]%string;
      Command.delay := 60 |});
  (js "backend-tools migrate",
   {| Command.output := template [
       "⚡ Running database migrations...";
       "";
       "✅ Migration 001_create_users_table.sql";
       "✅ Migration 002_create_posts_table.sql  ";
       "✅ Migration 003_add_user_roles.sql";
       "✅ Migration 004_create_sessions_table.sql";
       "";
       "🎯 All migrations completed successfully!";
       "📊 Database schema is up to date"]%string;
      Command.delay := 70 |});
  (js "version",
   {| Command.output := template [
       "🥷 Shuriken CLI v2.1.0";
       "Built with ❤️ for ninja developers"]%string;
      Command.delay := 30 |})
].

(** ** The handlers *)

Inductive Key := Enter | ArrowUp | ArrowDown | OtherKey.

(** What the page can deliver to the widget: a key pressed in the input, an
    edit of the input ([onChange], with the new value), a click on the
    [n]-th suggestion button, and the firing of the [n]-th pending timer. *)
Inductive Event :=
| KeyDown (key : Key)
| Change (value : str)
| SuggestionClick (n : nat)
| TimerFired (n : nat).

Section Handlers.
Context `{CaseFolding}.

(** The command table; the page uses [DEMO_COMMANDS], and
    [Object.entries] lists its keys in the order they are written. *)
Variable commands : list (str * Command.t).

(** [now] is what [formatTime()] returns while the handler runs. *)
Definition addLine (now : str) (line : TerminalLine) : State → State :=
  setLines (λ prev,
    prev ++ [ {| type := type line;
                 content := content line;
                 timestamp :=
                   Some (match timestamp line with
                         | Some t => if bool_decide (t = []) then now else t
                         | None => now
                         end) |} ]).

(** The updater of [typewriterEffect]: the last line is replaced when it
    is an output line. *)
Definition revealed (currentText timestamp : str)
    (prev : list TerminalLine) : list TerminalLine :=
  match last prev with
  | Some l =>
      if bool_decide (type l = output)
      then <[ pred (length prev) :=
                {| type := output; content := currentText;
                   timestamp := Some timestamp |} ]> prev
      else prev
  | None => prev
  end.

(** The loop of [typewriterEffect] from the test [i < words.length] to the
    next [await]. When the loop ends the function returns to its only
    caller, [executeCommand], whose last statement clears the processing
    flag. *)
Definition typewriterLoop (words : list str) (i : nat)
    (currentText timestamp : str) (delay : N) (w : State) : State :=
  match words !! i with
  | Some word =>
      let currentText :=
        currentText ++ (if (0 <? i)%nat then js " " else js "") ++ word in
      await (AfterWordDelay words i currentText timestamp delay)
        (setLines (revealed currentText timestamp) w)
  | None => setIsProcessing false w
  end.

Definition typewriterEffect (now : str) (text : str) (delay : N)
    (w : State) : State :=
  let words := split 32 text in
  let timestamp := now in
  typewriterLoop words 0 (js "") timestamp delay
    (setLines (λ prev,
       prev ++ [ {| type := output; content := js "";
                    timestamp := Some timestamp |} ]) w).

(** The test of [find] in [executeCommand]. *)
Definition matchesKey (normalizedCommand : str) (entry : str * Command.t) : bool :=
  let normalizedKey := trim (replaceWhiteSpace (fst entry)) in
  bool_decide (normalizedCommand = normalizedKey)
  || startsWith normalizedCommand (normalizedKey ++ js " ").

Definition normalize (trimmedCommand : str) : str :=
  trim (replaceWhiteSpace trimmedCommand).

(** The entry [executeCommand] finds for a raw input. *)
Definition findCommand (command : str) : option (str * Command.t) :=
  List.find (matchesKey (normalize (toLowerCase (trim command)))) commands.

(** [executeCommand] up to its first [await]. *)
Definition executeCommand (now : str) (command : str) (w : State) : State :=
  let trimmedCommand := toLowerCase (trim command) in
  if bool_decide (trimmedCommand = js "clear") then
    setLines (λ _, [ {| type := info; content := js "🥷 Terminal cleared";
                        timestamp := Some now |} ]) w
  else if bool_decide (trimmedCommand = js "") then w
  else
    let w := setCommandHistory (λ prev, prev ++ [command]) w in
    let w := setHistoryIndex (-1) w in
    let w := addLine now {| type := input;
                            content := js "$ shuriken " ++ command;
                            timestamp := None |} w in
    let w := setIsProcessing true w in
    let normalizedCommand := normalize trimmedCommand in
    let matchedCommand := List.find (matchesKey normalizedCommand) commands in
    await (AfterLookupDelay matchedCommand command) w.

(** The rest of [executeCommand] after an [await]. *)
Definition resume (now : str) (rest : Task) (w : State) : State :=
  match rest with
  | AfterLookupDelay matchedCommand command =>
      match matchedCommand with
      | Some (_, config) =>
          typewriterEffect now (Command.output config) (Command.delay config) w
      | None =>
          setIsProcessing false
            (addLine now
               {| type := error;
                  content := js "❌ Command not found: " ++ command ++
                             10 :: js "Type 'help' to see available commands.";
                  timestamp := None |} w)
      end
  | AfterWordDelay words i currentText timestamp delay =>
      typewriterLoop words (S i) currentText timestamp delay w
  end.

(** [currentInput.trim()] on [undefined] throws before any state is set. *)
Definition handleKeyDown (now : str) (key : Key) (w : State) : State :=
  match key with
  | Enter =>
      match currentInput w with
      | Some text =>
          if negb (isProcessing w) && negb (bool_decide (trim text = js ""))
          then setCurrentInput (Some (js "")) (executeCommand now text w)
          else w
      | None => w
      end
  | ArrowUp =>
      if (0 <? length (commandHistory w))%nat then
        let newIndex :=
          if (historyIndex w =? -1)%Z
          then (Z.of_nat (length (commandHistory w)) - 1)%Z
          else Z.max 0 (historyIndex w - 1) in
        setCurrentInput (index (commandHistory w) newIndex)
          (setHistoryIndex newIndex w)
      else w
  | ArrowDown =>
      if (-1 <? historyIndex w)%Z then
        let newIndex := (historyIndex w + 1)%Z in
        if (Z.of_nat (length (commandHistory w)) <=? newIndex)%Z
        then setCurrentInput (Some (js "")) (setHistoryIndex (-1) w)
        else setCurrentInput (index (commandHistory w) newIndex)
               (setHistoryIndex newIndex w)
      else w
  | OtherKey => w
  end.

(** The focus that the handler also gives to the input is no part of the
    state. *)
Definition handleSuggestionClick (suggestion : str) (w : State) : State :=
  if negb (isProcessing w) then setCurrentInput (Some suggestion) w else w.

(** One event of the page. The input and the suggestion buttons are
    rendered with [disabled={isProcessing}], and a disabled control receives
    no keyboard, input or click event. *)
Definition dispatch (now : str) (e : Event) (w : State) : State :=
  match e with
  | KeyDown key => if isProcessing w then w else handleKeyDown now key w
  | Change value =>
      if isProcessing w then w else setCurrentInput (Some value) w
  | SuggestionClick n =>
      if isProcessing w then w
      else match SUGGESTIONS !! n with
           | Some suggestion => handleSuggestionClick suggestion w
           | None => w
           end
  | TimerFired n =>
      match timers w !! n with
      | Some rest => resume now rest (fired n w)
      | None => w
      end
  end.

(** A run of events, each with the clock reading at its time. *)
Definition run (w : State) (events : list (str * Event)) : State :=
  foldl (λ w ev, dispatch (fst ev) (snd ev) w) w events.

(** The states the widget can be in. *)
Inductive reachable : State → Prop :=
| reachable_initial t0 t1 : reachable (initial t0 t1)
| reachable_dispatch now e w :
    reachable w → reachable (dispatch now e w).

End Handlers.

Existing Instance asciiCaseFolding.

(** The matching rule as the specification words it: the normalized input
    is the trigger, or the trigger, a space and anything. *)
Definition triggeredBy (normalized trigger : str) : Prop :=
  normalized = trigger ∨ ∃ rest, normalized = trigger ++ js " " ++ rest.

(** [words.join(' ')] *)
Fixpoint joinWords (words : list str) : str :=
  match words with
  | [] => []
  | [word] => word
  | word :: rest => word ++ js " " ++ joinWords rest
  end.

(** The words of a text: its maximal runs of code units that are not
    white space. *)
Fixpoint wordsOf (s : str) : list str :=
  match s with
  | [] => []
  | c :: s' =>
      if isWhiteSpace c then wordsOf s'
      else match s' with
           | d :: _ =>
               if isWhiteSpace d then [c] :: wordsOf s'
               else match wordsOf s' with
                    | word :: words => (c :: word) :: words
                    | [] => [[c]]
                    end
           | [] => [[c]]
           end
  end.

(** The normal form as the specification words it: no white space at
    either end, and every run of white space collapsed to a single space,
    which leaves the words of the text with one space between two of them. *)
Definition collapsed (s : str) : str := joinWords (wordsOf s).

(** ** Vocabulary of the statements *)

(** The lines the handlers write. *)
Definition cleared (now : str) : TerminalLine :=
  {| type := info; content := js "🥷 Terminal cleared"; timestamp := Some now |}.

Definition inputLine (now command : str) : TerminalLine :=
  {| type := input; content := js "$ shuriken " ++ command;
     timestamp := Some now |}.

Definition outputLine (timestamp text : str) : TerminalLine :=
  {| type := output; content := text; timestamp := Some timestamp |}.

Definition errorLine (now command : str) : TerminalLine :=
  {| type := error;
     content := js "❌ Command not found: " ++ command ++
                10 :: js "Type 'help' to see available commands.";
     timestamp := Some now |}.

(** No command is being processed and no timer is pending. *)
Definition idle (w : State) : Prop := isProcessing w = false ∧ timers w = [].

(** A line that [executeCommand] runs as a command: not blank, not "clear". *)
Definition isCommand `{CaseFolding} (command : str) : Prop :=
  trim command ≠ js "" ∧ toLowerCase (trim command) ≠ js "clear".

(** The [n]-th entry of [Object.entries(DEMO_COMMANDS)]. *)
Definition entryAt (n : nat) : str * Command.t :=
  default (js "", {| Command.output := js ""; Command.delay := 0 |})
    (DEMO_COMMANDS !! n).

(** The line that answers a command: its output, or the error. *)
Definition answer (matchedCommand : option (str * Command.t))
    (now command : str) : TerminalLine :=
  match matchedCommand with
  | Some (_, config) => outputLine now (Command.output config)
  | None => errorLine now command
  end.

(** The widget right after Enter on a command: the pause after the lookup
    has begun. *)
Definition started `{CaseFolding} (commands : list (str * Command.t))
    (w : State) (now command : str) : State :=
  {| lines := lines w ++ [inputLine now command];
     currentInput := Some (js "");
     isProcessing := true;
     commandHistory := commandHistory w ++ [command];
     historyIndex := -1;
     timers := timers w
               ++ [AfterLookupDelay (findCommand commands command) command] |}.

(** The widget in the middle of a reveal: word [k] of [words] is the last
    one shown in the output line that follows [base]; the fields that a
    reveal does not touch are those of [w]. *)
Definition revealing (w : State) (base : list TerminalLine)
    (words : list str) (k : nat) (timestamp : str) (delay : N) : State :=
  {| lines := base ++ [outputLine timestamp (joinWords (take (S k) words))];
     currentInput := currentInput w;
     isProcessing := true;
     commandHistory := commandHistory w;
     historyIndex := historyIndex w;
     timers := [AfterWordDelay words k (joinWords (take (S k) words))
                  timestamp delay] |}.

(** The widget once the command submitted in [w] has been processed and
    has written [written]. *)
Definition settled (w : State) (command : str)
    (written : list TerminalLine) : State :=
  {| lines := lines w ++ written;
     currentInput := Some (js "");
     isProcessing := false;
     commandHistory := commandHistory w ++ [command];
     historyIndex := -1;
     timers := [] |}.

(** The only pending timer fires, at each of the clock readings [nows]. *)
Definition ticks (nows : list str) : list (str * Event) :=
  (λ now, (now, TimerFired 0)) <$> nows.

(** How many timers [executeCommand] waits for in all: the pause after the
    lookup, and one per word of the output. *)
Definition pauses (matchedCommand : option (str * Command.t)) : nat :=
  match matchedCommand with
  | Some (_, config) => S (length (split 32 (Command.output config)))
  | None => 1
  end.

(** Typing [command], pressing Enter, and letting the timers fire. *)
Definition submit (command now : str) (nows : list str) : list (str * Event) :=
  (now, Change command) :: (now, KeyDown Enter) :: ticks nows.

(** The cursor of the history is inactive or points at an entry. *)
Definition cursorValid (w : State) : Prop :=
  historyIndex w = (-1)%Z
  ∨ (0 ≤ historyIndex w < Z.of_nat (length (commandHistory w)))%Z.

(** The widget with the cursor on an entry that has just been recalled. *)
Definition recalled (v : State) (entry : str) (cursor : Z) : State :=
  setCurrentInput (Some entry) (setHistoryIndex cursor v).

(** At most one timer is pending, and the processing flag is set exactly
    while one is. *)
Definition oneTask (w : State) : Prop :=
  (length (timers w) ≤ 1)%nat ∧ (isProcessing w = true ↔ timers w ≠ []).

(** The cursor is valid and the input is a string: an invariant of every
    event. *)
Definition wellFormed (w : State) : Prop :=
  cursorValid w ∧ is_Some (currentInput w).


(** ** Vocabulary of the further properties *)

(** Every white space of [s] is a space, and no white space follows it. *)
Fixpoint spaced (s : str) : Prop :=
  match s with
  | [] => True
  | c :: s' =>
      (isWhiteSpace c = true →
       c = 32 ∧ match s' with d :: _ => isWhiteSpace d = false | [] => True end)
      ∧ spaced s'
  end.

(** The transcript begins with a line of kind info. *)
Definition startsWithInfo (w : State) : Prop :=
  ∃ first rest, lines w = first :: rest ∧ type first = info.

(** What a pending task has to do with the rest of the state: a lookup
    that waits carries the entry found for the command that was echoed
    last and recorded last; a reveal that waits carries the words of an
    entry of the table, and the text shown in the last line is the first
    [i + 1] of them. *)
Definition taskConsistent `{CaseFolding} (commands : list (str * Command.t))
    (w : State) (task : Task) : Prop :=
  match task with
  | AfterLookupDelay matchedCommand command =>
      matchedCommand = findCommand commands command
      ∧ (∃ init now, lines w = init ++ [inputLine now command])
      ∧ last (commandHistory w) = Some command
  | AfterWordDelay words i text timestamp delay =>
      (∃ key config,
         (key, config) ∈ commands
         ∧ words = split 32 (Command.output config)
         ∧ delay = Command.delay config)
      ∧ (i < length words)%nat
      ∧ text = joinWords (take (S i) words)
      ∧ ∃ init, lines w = init ++ [outputLine timestamp text]
  end.

Definition pendingConsistent `{CaseFolding} (commands : list (str * Command.t))
    (w : State) : Prop :=
  ∀ task, timers w !! 0%nat = Some task → taskConsistent commands w task.

(** How many timers have yet to fire before the widget is idle. *)
Definition remainingPauses (w : State) : nat :=
  match timers w with
  | AfterLookupDelay matchedCommand _ :: _ => pauses matchedCommand
  | AfterWordDelay words i _ _ _ :: _ => length words - i
  | [] => 0
  end.

(** The number of spaces of a text. *)
Definition spaces (text : str) : nat := length (filter (λ c, c = 32) text).

Local Close Scope N_scope.

(** ** The cards that fade in ([Features], first module of Features.tsx) *)

(** [visibleFeatures] is a [boolean[]] that starts empty; [None] is a cell
    that was never written (a hole, or [undefined] after a copy), which
    reads as false. *)
Definition newVisible (index : nat) (prev : list (option bool)) :
    list (option bool) :=
  if (index <? length prev)%nat then <[index := Some true]> prev
  else prev ++ replicate (index - length prev) None ++ [Some true].

(** [visibleFeatures[index] ? ... : ...] in the class of a card. *)
Definition shown (visible : list (option bool)) (index : nat) : bool :=
  match visible !! index with
  | Some (Some true) => true
  | _ => false
  end.

(** An entry of the observer: [dataIndex] is the number that [parseInt]
    reads in the attribute [data-index], which the render writes from the
    index of the card, and [None] when the attribute is missing or empty,
    for which the handler takes ['0']. *)
Record ObserverEntry := {
  isIntersecting : bool;
  dataIndex : option nat
}.

(** The callback of the [IntersectionObserver]. *)
Definition onIntersect (entries : list ObserverEntry)
    (prev : list (option bool)) : list (option bool) :=
  foldl (λ visible entry,
           if isIntersecting entry
           then newVisible (default 0%nat (dataIndex entry)) visible
           else visible)
    prev entries.

(** ** The tabs and the copy button of [CodeExamples] *)

(** The hooks [copiedIndex] and [activeTab], the calls of
    [navigator.clipboard.writeText] that have not settled yet, each with
    the index that [copyToClipboard] was called with, and the number of
    pending timers of [setTimeout(() => setCopiedIndex(null), 2000)]. *)
Record Examples := {
  copiedIndex : option nat;
  activeTab : nat;
  writes : list nat;
  resets : nat
}.

Inductive ExamplesEvent :=
| TabClicked (index : nat)          (* the button of [examples[index]] *)
| CopyClicked                       (* the copy button of the active example *)
| WriteSettled (n : nat) (ok : bool) (* the [n]-th pending write resolves or rejects *)
| ResetFired.                       (* a pending timer fires *)

Definition mounted : Examples :=
  {| copiedIndex := None; activeTab := 0; writes := []; resets := 0 |}.

Section CodeExamples.

(** The number of entries of [examples] (four in the source): one tab
    button is rendered for each. *)
Variable count : nat.

Definition examplesStep (e : ExamplesEvent) (s : Examples) : Examples :=
  match e with
  | TabClicked index =>
      if (index <? count)%nat
      then {| copiedIndex := copiedIndex s; activeTab := index;
              writes := writes s; resets := resets s |}
      else s
  | CopyClicked =>
      {| copiedIndex := copiedIndex s; activeTab := activeTab s;
         writes := writes s ++ [activeTab s]; resets := resets s |}
  | WriteSettled n ok =>
      match writes s !! n with
      | Some index =>
          if ok
          then {| copiedIndex := Some index; activeTab := activeTab s;
                  writes := delete n (writes s); resets := S (resets s) |}
          else {| copiedIndex := copiedIndex s; activeTab := activeTab s;
                  writes := delete n (writes s); resets := resets s |}
      | None => s
      end
  | ResetFired =>
      match resets s with
      | S pending =>
          {| copiedIndex := None; activeTab := activeTab s;
             writes := writes s; resets := pending |}
      | O => s
      end
  end.

Inductive examplesReachable : Examples → Prop :=
| examplesReachable_mounted : examplesReachable mounted
| examplesReachable_step e s :
    examplesReachable s → examplesReachable (examplesStep e s).

End CodeExamples.

Local Open Scope N_scope.

(** Closes [Forall isAscii s] for a closed string [s]. *)
Ltac ascii_text := vm_compute; repeat constructor.

(** * Properties *)

(** ** Strings *)

Example js_trim : trim (js "  ui-kit   setup ") = js "ui-kit   setup".
Proof. reflexivity. Qed.

Example js_replace :
  replaceWhiteSpace (js "ui-kit   setup  x") = js "ui-kit setup x".
Proof. reflexivity. Qed.

Example js_split : split 32 (js "a  b") = [js "a"; js ""; js "b"].
Proof. reflexivity. Qed.

Example js_astral : js "🥷" = [55358; 56695].
Proof. reflexivity. Qed.

Lemma startsWith_prefix (s p : str) :
  startsWith s p = true ↔ ∃ rest, s = p ++ rest.
Proof.
  revert s; induction p as [|a p IH]; intros s; simpl.
  - split; [intros _; by exists s | done].
  - destruct s as [|b s].
    + split; [done | intros [rest Hrest]; discriminate].
    + rewrite andb_true_iff, N.eqb_eq, IH. split.
      * intros [-> [rest ->]]. by exists rest.
      * intros [rest Hrest]. injection Hrest as -> ->. eauto.
Qed.

Lemma split_nonempty (sep : N) (s : str) : split sep s ≠ [].
Proof.
  induction s as [|c s IH]; simpl; [done|].
  destruct (c =? sep); [done|]. by destruct (split sep s).
Qed.

(** Joining what [split] returns gives the text back. *)
Lemma joinWords_split (s : str) : joinWords (split 32 s) = s.
Proof.
  induction s as [|c s IH]; [done|]. simpl split.
  destruct (N.eqb_spec c 32) as [->|Hc].
  - pose proof (split_nonempty 32 s) as Hne.
    destruct (split 32 s) as [|w ws] eqn:E; [done|].
    change (joinWords ([] :: w :: ws)) with (32 :: joinWords (w :: ws)).
    by rewrite IH.
  - pose proof (split_nonempty 32 s) as Hne.
    destruct (split 32 s) as [|w ws] eqn:E; [done|].
    rewrite <- IH. by destruct ws.
Qed.

Lemma toLowerCase_nil `{CaseFolding} : toLowerCase [] = [].
Proof. by rewrite toLowerCase_ascii. Qed.

Lemma find_first {A} (f : A → bool) (l : list A) (x : A) :
  List.find f l = Some x ↔
  ∃ before after, l = before ++ x :: after ∧ f x = true
                  ∧ ∀ y, y ∈ before → f y = false.
Proof.
  induction l as [|a l IH]; simpl.
  - split; [done|]. intros (before & after & Hl & _). by destruct before.
  - destruct (f a) eqn:Ha.
    + split.
      * intros [= ->]. exists [], l. split_and!; [done..|]. by intros y ?%elem_of_nil.
      * intros ([|b before] & after & Hl & Hx & Hbefore).
        -- by injection Hl as ->.
        -- injection Hl as -> _. rewrite Hbefore in Ha; [done|]. apply elem_of_cons; by left.
    + rewrite IH. split.
      * intros (before & after & -> & Hx & Hbefore).
        exists (a :: before), after. split_and!; [done..|].
        intros y [->|?]%elem_of_cons; auto.
      * intros ([|b before] & after & Hl & Hx & Hbefore).
        -- injection Hl as -> _. congruence.
        -- injection Hl as -> ->. exists before, after. split_and!; [done..|].
           intros y Hy. apply Hbefore, elem_of_cons. by right.
Qed.

Lemma find_none {A} (f : A → bool) (l : list A) :
  List.find f l = None ↔ ∀ y, y ∈ l → f y = false.
Proof.
  induction l as [|a l IH]; simpl.
  - split; [by intros _ y ?%elem_of_nil | done].
  - destruct (f a) eqn:Ha.
    + split; [done|]. intros Hall. rewrite Hall in Ha; [done|]. apply elem_of_cons; by left.
    + rewrite IH. split.
      * intros Hall y [->|?]%elem_of_cons; auto.
      * intros Hall y Hy. apply Hall, elem_of_cons. by right.
Qed.

(** *** Trimming *)

Lemma trimStart_split (s : str) :
  ∃ pad, s = pad ++ trimStart s ∧ Forall (λ c, isWhiteSpace c = true) pad.
Proof.
  induction s as [|c s (pad & Hs & Hpad)]; [by exists []|]. simpl.
  destruct (isWhiteSpace c) eqn:Hc.
  - exists (c :: pad). split; [by rewrite Hs at 1 | by constructor].
  - by exists [].
Qed.

Lemma trimStart_head (s : str) (c : N) (rest : str) :
  trimStart s = c :: rest → isWhiteSpace c = false.
Proof.
  induction s as [|d s IH]; [done|]. simpl.
  destruct (isWhiteSpace d) eqn:Hd; [done|]. by intros [= <- _].
Qed.

Lemma trimStart_blank (s : str) :
  Forall (λ c, isWhiteSpace c = true) s → trimStart s = [].
Proof. induction 1 as [|c s Hc _ IH]; [done|]. simpl. by rewrite Hc. Qed.

Lemma trimStart_app (s pad : str) :
  trimStart (s ++ pad)
  = match trimStart s with [] => trimStart pad | _ => trimStart s ++ pad end.
Proof.
  induction s as [|c s IH]; simpl; [by destruct (trimStart pad)|].
  by destruct (isWhiteSpace c).
Qed.

Lemma trimEnd_split (s : str) :
  ∃ pad, s = trimEnd s ++ pad ∧ Forall (λ c, isWhiteSpace c = true) pad.
Proof.
  unfold trimEnd. destruct (trimStart_split (rev s)) as (pad & Hs & Hpad).
  exists (rev pad). split; [|by apply Forall_rev].
  rewrite <- rev_app_distr, <- Hs. by rewrite rev_involutive.
Qed.

Lemma trimEnd_last (s : str) (c : N) (init : str) :
  trimEnd s = init ++ [c] → isWhiteSpace c = false.
Proof.
  unfold trimEnd. intros Hs. apply (f_equal (λ l, rev l)) in Hs. simpl in Hs.
  rewrite rev_involutive, rev_app_distr in Hs. simpl in Hs.
  by apply trimStart_head in Hs.
Qed.

Lemma trimEnd_pad (s pad : str) :
  Forall (λ c, isWhiteSpace c = true) pad → trimEnd (s ++ pad) = trimEnd s.
Proof.
  intros Hpad. unfold trimEnd. rewrite rev_app_distr, trimStart_app.
  rewrite trimStart_blank by by apply Forall_rev. done.
Qed.

Lemma trimEnd_nil : trimEnd [] = [].
Proof. reflexivity. Qed.

(** White space around a string does not survive [trim]. *)
Lemma trim_pad (before s after : str) :
  Forall (λ c, isWhiteSpace c = true) before →
  Forall (λ c, isWhiteSpace c = true) after →
  trim (before ++ s ++ after) = trim s.
Proof.
  intros Hbefore Hafter. unfold trim.
  rewrite trimStart_app, (trimStart_blank before) by done.
  rewrite trimStart_app. destruct (trimStart s) as [|c rest] eqn:Hs.
  - by rewrite trimStart_blank.
  - by rewrite trimEnd_pad.
Qed.

(** [trim s] sits in [s] between two runs of white space, and has none at
    its own ends. *)
Lemma trim_split (s : str) :
  ∃ before after,
    s = before ++ trim s ++ after
    ∧ Forall (λ c, isWhiteSpace c = true) before
    ∧ Forall (λ c, isWhiteSpace c = true) after.
Proof.
  destruct (trimStart_split s) as (before & Hs & Hbefore).
  destruct (trimEnd_split (trimStart s)) as (after & Hs' & Hafter).
  exists before, after. split_and!; [|done..]. unfold trim. by rewrite <- Hs'.
Qed.

Lemma trim_head (s : str) (c : N) (rest : str) :
  trim s = c :: rest → isWhiteSpace c = false.
Proof.
  intros Htrim. destruct (trimEnd_split (trimStart s)) as (after & Hs & _).
  fold (trim s) in Hs. rewrite Htrim in Hs. by apply trimStart_head in Hs.
Qed.

Lemma trim_last (s : str) (c : N) (init : str) :
  trim s = init ++ [c] → isWhiteSpace c = false.
Proof. apply trimEnd_last. Qed.

(** *** The normal form *)

Example js_collapsed :
  collapsed (js "  ui-kit" ++ [9; 32] ++ js "setup    --verbose ")
  = js "ui-kit setup --verbose".
Proof. reflexivity. Qed.

Lemma replaceRuns_head (s : str) :
  replaceRuns false s
  = match s with
    | c :: _ => if isWhiteSpace c then 32 :: replaceRuns true s
                else replaceRuns true s
    | [] => []
    end.
Proof. destruct s as [|c s]; [done|]. simpl. by destruct (isWhiteSpace c). Qed.

Lemma wordsOf_head (c : N) (s : str) :
  isWhiteSpace c = false → ∃ word words, wordsOf (c :: s) = (c :: word) :: words.
Proof.
  intros Hc. simpl. rewrite Hc. destruct s as [|d s]; [by eexists _, _|].
  destruct (isWhiteSpace d); [by eexists _, _|].
  destruct (wordsOf (d :: s)); by eexists _, _.
Qed.

(** The text after [replace] is the words with single spaces, and at most a space after them. *)
Lemma replaceRuns_words (s : str) :
  ∃ pad, replaceRuns true s = collapsed s ++ pad
         ∧ Forall (λ c, isWhiteSpace c = true) pad.
Proof.
  unfold collapsed.
  induction s as [|c s (pad & IH & Hpad)]; [by exists []|].
  cbn [replaceRuns wordsOf]. destruct (isWhiteSpace c) eqn:Hc; [by exists pad|].
  rewrite replaceRuns_head. destruct s as [|d s]; [by exists []|].
  destruct (isWhiteSpace d) eqn:Hd.
  - rewrite IH. destruct (wordsOf (d :: s)) as [|word words].
    + exists (32 :: pad). split; [done|]. by constructor.
    + by exists pad.
  - destruct (wordsOf_head d s Hd) as (word & words & Hwords).
    rewrite IH, Hwords. exists pad. split; [|done]. by destruct words.
Qed.

Lemma wordsOf_tight (s : str) :
  Forall (λ word, word ≠ [] ∧ Forall (λ c, isWhiteSpace c = false) word)
    (wordsOf s).
Proof.
  induction s as [|c s IH]; [constructor|]. cbn [wordsOf].
  destruct (isWhiteSpace c) eqn:Hc; [done|].
  destruct s as [|d s]; [by repeat constructor|].
  destruct (isWhiteSpace d) eqn:Hd; [by repeat constructor|].
  destruct (wordsOf (d :: s)) as [|word words]; [by repeat constructor|].
  apply Forall_cons in IH as [[_ Hword] Hwords].
  constructor; [|done]. split; [done|]. by constructor.
Qed.

Lemma trimEnd_app (s s' : str) :
  trimEnd s' ≠ [] → trimEnd (s ++ s') = s ++ trimEnd s'.
Proof.
  unfold trimEnd. intros Hs'. rewrite rev_app_distr, trimStart_app.
  destruct (trimStart (rev s')) as [|c rest]; [done|].
  by rewrite rev_app_distr, rev_involutive.
Qed.

Lemma trimEnd_word (word : str) :
  word ≠ [] → Forall (λ c, isWhiteSpace c = false) word → trimEnd word = word.
Proof.
  intros Hne Hword. destruct (exists_last Hne) as (init & c & ->).
  apply Forall_app in Hword as [_ [Hc _]%Forall_cons].
  unfold trimEnd. rewrite rev_app_distr. simpl. rewrite Hc.
  by rewrite <- (rev_involutive init) at 2.
Qed.

(** Words joined by single spaces have no white space to trim. *)
Lemma trim_joinWords (words : list str) :
  Forall (λ word, word ≠ [] ∧ Forall (λ c, isWhiteSpace c = false) word) words →
  trim (joinWords words) = joinWords words.
Proof.
  intros Hwords. unfold trim.
  assert (trimStart (joinWords words) = joinWords words) as ->.
  { destruct Hwords as [|word words [Hne Hword] _]; [done|].
    destruct word as [|c word]; [done|].
    apply Forall_cons in Hword as [Hc _].
    destruct words; simpl; by rewrite Hc. }
  induction Hwords as [|word words [Hne Hword] Hwords IH]; [done|].
  destruct words as [|word' words]; [by apply trimEnd_word|].
  change (joinWords (word :: word' :: words))
    with (word ++ js " " ++ joinWords (word' :: words)).
  assert (joinWords (word' :: words) ≠ []) as Hrest.
  { apply Forall_cons in Hwords as [[Hne' _] _].
    destruct word'; [done|]. by destruct words. }
  rewrite app_assoc, trimEnd_app; rewrite IH; done.
Qed.

Lemma normalize_collapsed (s : str) : normalize s = collapsed s.
Proof.
  unfold normalize, replaceWhiteSpace.
  destruct (replaceRuns_words s) as (pad & Hs & Hpad).
  assert (∃ lead, replaceRuns false s = lead ++ collapsed s ++ pad
                  ∧ Forall (λ c, isWhiteSpace c = true) lead)
    as (lead & -> & Hlead).
  { rewrite replaceRuns_head, Hs. destruct s as [|c s].
    - exists []. split; [exact Hs | done].
    - destruct (isWhiteSpace c); [|by exists []].
      exists [32]. split; [done|]. by repeat constructor. }
  rewrite trim_pad by done. apply trim_joinWords, wordsOf_tight.
Qed.

(** ** The command matcher *)

Lemma matchesKey_triggeredBy (normalized : str) (entry : str * Command.t) :
  matchesKey normalized entry = true ↔
  triggeredBy normalized (trim (replaceWhiteSpace (fst entry))).
Proof.
  unfold matchesKey, triggeredBy.
  rewrite orb_true_iff, bool_decide_eq_true, startsWith_prefix.
  apply or_iff_compat_l. by setoid_rewrite <- app_assoc.
Qed.

(** The keys of [DEMO_COMMANDS] are already normalized. *)
Lemma DEMO_COMMANDS_keys (entry : str * Command.t) :
  entry ∈ DEMO_COMMANDS → trim (replaceWhiteSpace (fst entry)) = fst entry.
Proof.
  unfold DEMO_COMMANDS. rewrite !elem_of_cons, elem_of_nil.
  intros [->|[->|[->|[->|[->|[]]]]]]; reflexivity.
Qed.

(** For any table: the entry found is the first one, in the order of the
    table, whose normalized key triggers on the normalized input. *)
Lemma findCommand_first `{CaseFolding} (commands : list (str * Command.t))
    (command : str) (entry : str * Command.t) :
  findCommand commands command = Some entry ↔
  ∃ before after,
    commands = before ++ entry :: after
    ∧ matchesKey (normalize (toLowerCase (trim command))) entry = true
    ∧ ∀ earlier, earlier ∈ before →
        matchesKey (normalize (toLowerCase (trim command))) earlier = false.
Proof. apply find_first. Qed.

(** What [executeCommand] leaves waiting is the lookup of [findCommand]. *)
Lemma executeCommand_awaits_lookup `{CaseFolding}
    (commands : list (str * Command.t)) (now command : str) (w : State) :
  toLowerCase (trim command) ≠ js "clear" →
  toLowerCase (trim command) ≠ js "" →
  timers (executeCommand commands now command w)
  = timers w ++ [AfterLookupDelay (findCommand commands command) command].
Proof.
  intros Hclear Hempty. unfold executeCommand.
  rewrite !bool_decide_eq_false_2 by done. reflexivity.
Qed.

Lemma matchesKey_collapsed (normalized : str) (entry : str * Command.t) :
  matchesKey normalized entry = true ↔
  triggeredBy normalized (collapsed (fst entry)).
Proof. by rewrite matchesKey_triggeredBy, <- normalize_collapsed. Qed.

Lemma findCommand_triggered `{CaseFolding} (commands : list (str * Command.t))
    (command : str) (entry : str * Command.t) :
  findCommand commands command = Some entry ↔
  ∃ before after,
    commands = before ++ entry :: after
    ∧ triggeredBy (collapsed (toLowerCase (trim command))) (collapsed (fst entry))
    ∧ ∀ earlier, earlier ∈ before →
        ¬ triggeredBy (collapsed (toLowerCase (trim command)))
            (collapsed (fst earlier)).
Proof.
  rewrite findCommand_first, normalize_collapsed.
  do 2 (apply exist_proper; intros ?). rewrite matchesKey_collapsed.
  do 2 (apply and_iff_compat_l). apply forall_proper; intros earlier.
  by rewrite <- matchesKey_collapsed, not_true_iff_false.
Qed.

Lemma DEMO_COMMANDS_collapsed (entry : str * Command.t) :
  entry ∈ DEMO_COMMANDS → collapsed (fst entry) = fst entry.
Proof. rewrite <- normalize_collapsed. apply DEMO_COMMANDS_keys. Qed.

(** C1: the matcher selects an entry of the command table exactly when the
    input, trimmed, lowercased and with every run of white space collapsed
    to a single space, is that entry's trigger or starts with the trigger
    and a space, and no entry declared before it is triggered as well. This
    holds for every table, the trigger of an entry being its key in normal
    form, and so for [DEMO_COMMANDS], whose keys are their own triggers.
    The input "ui-kit setup --verbose" selects the entry "ui-kit setup", and
    so does the same input in capitals, padded and spaced out with a tab and
    several spaces; "ui-kit setups" selects nothing; of two entries that are
    both triggered, the one declared first is selected. *)
Theorem matcher_selects_first_trigger `{CaseFolding} :
  (∀ (commands : list (str * Command.t)) (command : str)
     (entry : str * Command.t),
     findCommand commands command = Some entry ↔
     ∃ before after,
       commands = before ++ entry :: after
       ∧ triggeredBy (collapsed (toLowerCase (trim command)))
           (collapsed (fst entry))
       ∧ ∀ earlier, earlier ∈ before →
           ¬ triggeredBy (collapsed (toLowerCase (trim command)))
               (collapsed (fst earlier)))
  ∧ (∀ (command : str) (entry : str * Command.t),
       findCommand DEMO_COMMANDS command = Some entry ↔
       ∃ before after,
         DEMO_COMMANDS = before ++ entry :: after
         ∧ triggeredBy (collapsed (toLowerCase (trim command))) (fst entry)
         ∧ ∀ earlier, earlier ∈ before →
             ¬ triggeredBy (collapsed (toLowerCase (trim command)))
                 (fst earlier))
  ∧ findCommand DEMO_COMMANDS (js "ui-kit setup --verbose")
    = DEMO_COMMANDS !! 1%nat
  ∧ fst <$> DEMO_COMMANDS !! 1%nat = Some (js "ui-kit setup")
  ∧ collapsed (lowerAscii <$> trim (js "  UI-Kit" ++ [9; 32] ++ js "SETUP   --verbose "))
    = js "ui-kit setup --verbose"
  ∧ findCommand DEMO_COMMANDS
      (js "  UI-Kit" ++ [9; 32] ++ js "SETUP   --verbose ")
    = DEMO_COMMANDS !! 1%nat
  ∧ findCommand DEMO_COMMANDS (js "ui-kit setups") = None
  ∧ ∀ first second : Command.t,
      findCommand [(js "ui-kit", first); (js "ui-kit setup", second)]
        (js "ui-kit setup")
      = Some (js "ui-kit", first).
Proof.
  split_and!.
  - apply findCommand_triggered.
  - intros command entry. rewrite findCommand_triggered.
    split; intros (before & after & Htable & Hentry & Hearlier);
      exists before, after; (split; [done|]).
    + split.
      * rewrite DEMO_COMMANDS_collapsed in Hentry; [done|].
        rewrite Htable, elem_of_app, elem_of_cons. auto.
      * intros earlier Hin. rewrite <- (DEMO_COMMANDS_collapsed earlier).
        -- by apply Hearlier.
        -- rewrite Htable, elem_of_app. auto.
    + split.
      * rewrite DEMO_COMMANDS_collapsed; [done|].
        rewrite Htable, elem_of_app, elem_of_cons. auto.
      * intros earlier Hin. rewrite DEMO_COMMANDS_collapsed; [by apply Hearlier|].
        rewrite Htable, elem_of_app. auto.
  - unfold findCommand. rewrite toLowerCase_ascii by ascii_text. reflexivity.
  - reflexivity.
  - reflexivity.
  - unfold findCommand. rewrite toLowerCase_ascii by ascii_text. reflexivity.
  - unfold findCommand. rewrite toLowerCase_ascii by ascii_text. reflexivity.
  - intros first second. unfold findCommand.
    rewrite toLowerCase_ascii by ascii_text. reflexivity.
Qed.

(** ** Submitting a line *)

Lemma clear_is_not_blank `{CaseFolding} (command : str) :
  toLowerCase (trim command) = js "clear" → trim command ≠ js "".
Proof. intros Hclear Hblank. rewrite Hblank, toLowerCase_nil in Hclear. done. Qed.

Lemma executeCommand_clear `{CaseFolding}
    (commands : list (str * Command.t)) (now command : str) (w : State) :
  toLowerCase (trim command) = js "clear" →
  executeCommand commands now command w = setLines (λ _, [cleared now]) w.
Proof. intros Hclear. unfold executeCommand. by rewrite bool_decide_eq_true_2. Qed.

Lemma executeCommand_blank `{CaseFolding}
    (commands : list (str * Command.t)) (now command : str) (w : State) :
  trim command = js "" → executeCommand commands now command w = w.
Proof.
  intros Hblank. unfold executeCommand. rewrite Hblank, toLowerCase_nil.
  rewrite bool_decide_eq_false_2 by done. by rewrite bool_decide_eq_true_2.
Qed.

Lemma enter_clear `{CaseFolding}
    (commands : list (str * Command.t)) (now command : str) (w : State) :
  toLowerCase (trim command) = js "clear" →
  currentInput w = Some command → isProcessing w = false →
  dispatch commands now (KeyDown Enter) w
  = setCurrentInput (Some (js "")) (setLines (λ _, [cleared now]) w).
Proof.
  intros Hclear Hinput Hidle. unfold dispatch, handleKeyDown.
  rewrite Hinput, Hidle, bool_decide_eq_false_2 by by apply clear_is_not_blank.
  simpl. by rewrite executeCommand_clear.
Qed.

(** C3: whatever the transcript holds, submitting a line that is "clear"
    once trimmed and lowercased leaves exactly one line, of kind info; the
    command table is not consulted (the result is the same for every table)
    and nothing else of the state changes. *)
Theorem clear_resets_transcript `{CaseFolding}
    (commands : list (str * Command.t)) (now command : str) (w : State) :
  toLowerCase (trim command) = js "clear" →
  executeCommand commands now command w = setLines (λ _, [cleared now]) w
  ∧ lines (executeCommand commands now command w) = [cleared now]
  ∧ type (cleared now) = info
  ∧ (currentInput w = Some command → isProcessing w = false →
     dispatch commands now (KeyDown Enter) w
     = setCurrentInput (Some (js "")) (setLines (λ _, [cleared now]) w)).
Proof.
  intros Hclear. split_and!.
  - by apply executeCommand_clear.
  - by rewrite executeCommand_clear.
  - done.
  - intros Hinput Hidle. by apply (enter_clear commands now command).
Qed.

Lemma clear_resets_transcript_witness :
  let w := setCurrentInput (Some (js "  CLEAR ")) (initial (js "09:00:00") (js "09:00:00")) in
  lines (dispatch DEMO_COMMANDS (js "09:00:07") (KeyDown Enter) w)
  = [cleared (js "09:00:07")].
Proof.
  intros w.
  assert (toLowerCase (trim (js "  CLEAR ")) = js "clear") as Hclear
    by reflexivity.
  destruct (clear_resets_transcript DEMO_COMMANDS (js "09:00:07")
              (js "  CLEAR ") w Hclear) as (_ & _ & _ & Hkey).
  rewrite Hkey; reflexivity.
Defined.

(** C10: Enter on an input that is empty once trimmed changes nothing: the
    key handler does not call [executeCommand], and [executeCommand] itself
    returns at once on such a command. *)
Theorem blank_input_is_noop `{CaseFolding}
    (commands : list (str * Command.t)) (now text : str) (w : State) :
  trim text = js "" →
  executeCommand commands now text w = w
  ∧ (currentInput w = Some text →
     handleKeyDown commands now Enter w = w
     ∧ dispatch commands now (KeyDown Enter) w = w).
Proof.
  intros Hblank. split.
  - by apply executeCommand_blank.
  - intros Hinput.
    assert (handleKeyDown commands now Enter w = w) as Hkey.
    { unfold handleKeyDown. rewrite Hinput, bool_decide_eq_true_2 by done.
      by rewrite andb_false_r. }
    split; [done|]. unfold dispatch. rewrite Hkey. by destruct (isProcessing w).
Qed.

Lemma blank_input_is_noop_witness :
  let w := setCurrentInput (Some (js "   ")) (initial (js "09:00:00") (js "09:00:00")) in
  executeCommand DEMO_COMMANDS (js "09:00:07") (js "   ") w = w
  ∧ dispatch DEMO_COMMANDS (js "09:00:07") (KeyDown Enter) w = w.
Proof.
  intros w.
  assert (trim (js "   ") = js "") as Hblank by reflexivity.
  destruct (blank_input_is_noop DEMO_COMMANDS (js "09:00:07") (js "   ") w Hblank)
    as [Hexec Hkey].
  split; [exact Hexec | exact (proj2 (Hkey eq_refl))].
Defined.

(** ** The reveal *)

Section Reveal.
Context `{CaseFolding}.
Variable commands : list (str * Command.t).

Lemma joinWords_snoc (words : list str) (word : str) :
  words ≠ [] → joinWords (words ++ [word]) = joinWords words ++ js " " ++ word.
Proof.
  induction words as [|w [|w' ws] IH]; intros Hne; [done | done |].
  change (joinWords ((w :: w' :: ws) ++ [word]))
    with (w ++ js " " ++ joinWords ((w' :: ws) ++ [word])).
  rewrite IH by done.
  change (joinWords (w :: w' :: ws)) with (w ++ js " " ++ joinWords (w' :: ws)).
  by rewrite <- !app_assoc.
Qed.

Lemma revealed_last (currentText timestamp : str)
    (base : list TerminalLine) (line : TerminalLine) :
  type line = output →
  revealed currentText timestamp (base ++ [line])
  = base ++ [outputLine timestamp currentText].
Proof.
  intros Houtput. unfold revealed.
  rewrite last_snoc, Houtput, bool_decide_eq_true_2 by done.
  rewrite length_app, Nat.add_1_r. simpl pred.
  replace (length base) with (length base + 0)%nat by lia.
  by rewrite insert_app_r.
Qed.

(** The pause after the lookup ends: the first word is shown. *)
Lemma reveal_starts (now text : str) (delay : N) (w : State) :
  typewriterEffect now text delay w
  = await (AfterWordDelay (split 32 text) 0
             (joinWords (take 1 (split 32 text))) now delay)
      (setLines (λ prev,
         prev ++ [outputLine now (joinWords (take 1 (split 32 text)))]) w).
Proof.
  unfold typewriterEffect, typewriterLoop.
  pose proof (split_nonempty 32 text) as Hne.
  destruct (split 32 text) as [|word words]; [done|]. simpl.
  unfold await, setLines. simpl. rewrite revealed_last by done.
  done.
Qed.

(** One more word is shown when the timer fires during a reveal. *)
Lemma reveal_step (w : State) (base : list TerminalLine) (words : list str)
    (k : nat) (timestamp now : str) (delay : N) :
  (S k < length words)%nat →
  dispatch commands now (TimerFired 0) (revealing w base words k timestamp delay)
  = revealing w base words (S k) timestamp delay.
Proof.
  intros Hk. destruct (lookup_lt_is_Some_2 words (S k) Hk) as [word Hword].
  unfold dispatch, revealing.
  cbn [timers lookup list_lookup resume]. unfold typewriterLoop. rewrite Hword.
  unfold await, setLines, fired.
  cbn [lines currentInput isProcessing commandHistory historyIndex timers
       delete list_delete app Nat.ltb Nat.leb].
  rewrite revealed_last by done.
  rewrite (take_S_r words (S k) word) by done.
  rewrite joinWords_snoc; [done|]. by destruct words.
Qed.

(** After the last word, the timer fires once more and the reveal is over. *)
Lemma reveal_ends (w : State) (base : list TerminalLine) (words : list str)
    (k : nat) (timestamp now : str) (delay : N) :
  S k = length words →
  dispatch commands now (TimerFired 0) (revealing w base words k timestamp delay)
  = setIsProcessing false
      (fired 0 (revealing w base words k timestamp delay)).
Proof.
  intros Hk. unfold dispatch, revealing.
  cbn [timers lookup list_lookup resume]. unfold typewriterLoop.
  cbn [fired timers delete list_delete].
  rewrite lookup_ge_None_2 by lia. reflexivity.
Qed.

Lemma run_app (w : State) (events events' : list (str * Event)) :
  run commands w (events ++ events')
  = run commands (run commands w events) events'.
Proof. apply foldl_app. Qed.

Lemma run_cons (w : State) (ev : str * Event) (events : list (str * Event)) :
  run commands w (ev :: events)
  = run commands (dispatch commands (fst ev) (snd ev) w) events.
Proof. reflexivity. Qed.

Lemma reachable_run (w : State) (events : list (str * Event)) :
  reachable commands w → reachable commands (run commands w events).
Proof.
  revert w. induction events as [|[now e] events IH]; intros w Hw; [done|].
  rewrite run_cons. apply IH. by constructor.
Qed.

Lemma reveal_steps (w : State) (base : list TerminalLine) (words : list str)
    (timestamp : str) (delay : N) (nows : list str) (k : nat) :
  (S k + length nows < S (length words))%nat →
  run commands (revealing w base words k timestamp delay) (ticks nows)
  = revealing w base words (k + length nows) timestamp delay.
Proof.
  revert k. induction nows as [|now nows IH]; intros k Hk.
  - simpl. by rewrite Nat.add_0_r.
  - simpl in Hk. unfold ticks. rewrite fmap_cons, run_cons. cbn [fst snd].
    rewrite reveal_step by lia. fold (ticks nows).
    rewrite IH by lia. f_equal; simpl; lia.
Qed.

(** *** From Enter to the answer *)

Lemma isCommand_lowered (command : str) :
  isCommand command →
  toLowerCase (trim command) ≠ js "clear" ∧ toLowerCase (trim command) ≠ js "".
Proof.
  intros [Hblank Hclear]. split; [done|].
  intros Hempty. by apply toLowerCase_empty in Hempty.
Qed.

Lemma executeCommand_command (now command : str) (w : State) :
  isCommand command →
  setCurrentInput (Some (js "")) (executeCommand commands now command w)
  = started commands w now command.
Proof.
  intros [Hclear Hempty]%isCommand_lowered. unfold executeCommand.
  rewrite !bool_decide_eq_false_2 by done. reflexivity.
Qed.

Lemma enter_command (now command : str) (w : State) :
  isProcessing w = false → currentInput w = Some command → isCommand command →
  dispatch commands now (KeyDown Enter) w = started commands w now command.
Proof.
  intros Hidle Hinput Hcommand. unfold dispatch, handleKeyDown.
  rewrite Hidle, Hinput. destruct Hcommand as [Hblank Hclear].
  rewrite bool_decide_eq_false_2 by done. cbn [negb andb].
  by apply executeCommand_command.
Qed.

Lemma lookup_fails (w : State) (now now' command : str) :
  timers w = [] → findCommand commands command = None →
  dispatch commands now' (TimerFired 0) (started commands w now command)
  = settled w command [inputLine now command; errorLine now' command].
Proof.
  intros Htimers Hnone. unfold dispatch, started.
  cbn [timers]. rewrite Htimers, Hnone. cbn [app lookup list_lookup resume].
  unfold settled, setIsProcessing, addLine, setLines, fired.
  cbn [lines currentInput isProcessing commandHistory historyIndex timers
       type content timestamp delete list_delete].
  by rewrite <- app_assoc.
Qed.

Lemma lookup_succeeds (w : State) (now now' command key : str)
    (config : Command.t) :
  timers w = [] → findCommand commands command = Some (key, config) →
  dispatch commands now' (TimerFired 0) (started commands w now command)
  = revealing (started commands w now command) (lines w ++ [inputLine now command])
      (split 32 (Command.output config)) 0 now' (Command.delay config).
Proof.
  intros Htimers Hsome. unfold dispatch, started.
  cbn [timers]. rewrite Htimers, Hsome. cbn [app lookup list_lookup resume].
  rewrite reveal_starts. reflexivity.
Qed.

(** A command submitted to an idle widget is processed once its timers
    have fired: the input line and the answer are written, the command is
    in the history, and the widget is idle again. *)
Lemma submission_settles (w : State) (now now' command : str)
    (nows : list str) :
  idle w → currentInput w = Some command → isCommand command →
  S (length nows) = pauses (findCommand commands command) →
  run commands w ((now, KeyDown Enter) :: ticks (now' :: nows))
  = settled w command
      [inputLine now command; answer (findCommand commands command) now' command].
Proof.
  intros [Hidle Htimers] Hinput Hcommand Hpauses.
  rewrite run_cons. cbn [fst snd]. rewrite (enter_command now command) by done.
  unfold ticks. rewrite fmap_cons, run_cons. cbn [fst snd]. fold (ticks nows).
  destruct (findCommand commands command) as [[key config]|] eqn:Hfind.
  - rewrite (lookup_succeeds _ _ _ _ key config) by done.
    simpl in Hpauses. injection Hpauses as Hlen.
    pose proof (split_nonempty 32 (Command.output config)) as Hne.
    destruct (split 32 (Command.output config)) as [|word words] eqn:Hwords;
      [done|]. clear Hne.
    assert (nows ≠ []) as Hnows by (by intros ->).
    destruct (exists_last Hnows) as (nows' & last & ->).
    rewrite length_app, Nat.add_1_r in Hlen. simpl in Hlen.
    unfold ticks. rewrite fmap_app, run_app. fold (ticks nows').
    rewrite reveal_steps by (simpl; lia).
    cbn [fmap list_fmap]. rewrite run_cons. cbn [fst snd run foldl].
    rewrite reveal_ends by (simpl; lia).
    unfold settled, setIsProcessing, fired, revealing, started.
    cbn [lines currentInput isProcessing commandHistory historyIndex timers
         delete list_delete answer].
    rewrite take_ge by (simpl; lia). rewrite <- Hwords, joinWords_split.
    by rewrite <- app_assoc.
  - simpl in Hpauses. destruct nows; [|done].
    by rewrite lookup_fails.
Qed.

End Reveal.

(** C2: a command that matches an entry is answered by one output line.
    The text is split at single spaces and the line is appended empty,
    then filled token by token; after the pause of the lookup and [k] more
    pauses the line holds the first [k + 1] tokens, a space between two of
    them; and when all timers have fired the line holds the text of the
    entry, whole and unchanged. *)
Theorem reveal_shows_full_output `{CaseFolding}
    (commands : list (str * Command.t)) (w : State) (command key : str)
    (config : Command.t) (now now' : str) (nows : list str) :
  idle w → currentInput w = Some command → isCommand command →
  findCommand commands command = Some (key, config) →
  length nows = length (split 32 (Command.output config)) →
  joinWords (split 32 (Command.output config)) = Command.output config
  ∧ (∀ v, typewriterEffect now' (Command.output config) (Command.delay config) v
          = typewriterLoop (split 32 (Command.output config)) 0 (js "") now'
              (Command.delay config)
              (setLines (λ prev, prev ++ [outputLine now' (js "")]) v))
  ∧ (∀ k, (k < length (split 32 (Command.output config)))%nat →
       lines (run commands w ((now, KeyDown Enter) :: ticks (now' :: take k nows)))
       = lines w ++ [ inputLine now command;
                      outputLine now'
                        (joinWords (take (S k) (split 32 (Command.output config)))) ])
  ∧ run commands w ((now, KeyDown Enter) :: ticks (now' :: nows))
    = settled w command
        [inputLine now command; outputLine now' (Command.output config)].
Proof.
  intros Hidle Hinput Hcommand Hfind Hlen. split_and!.
  - apply joinWords_split.
  - done.
  - intros k Hk. destruct Hidle as [Hidle Htimers].
    rewrite run_cons. cbn [fst snd].
    rewrite (enter_command commands now command) by done.
    unfold ticks. rewrite fmap_cons, run_cons. cbn [fst snd].
    rewrite (lookup_succeeds commands _ _ _ _ key config) by done.
    fold (ticks (take k nows)).
    rewrite reveal_steps by (rewrite length_take; lia).
    rewrite length_take, Nat.min_l by lia.
    unfold revealing. cbn [lines]. by rewrite <- app_assoc.
  - rewrite (submission_settles commands w now now' command nows); try done.
    + by rewrite Hfind.
    + rewrite Hfind. simpl. by rewrite Hlen.
Qed.

Lemma reveal_shows_full_output_witness :
  let t := js "09:00:00" in
  let w := setCurrentInput (Some (js "help")) (initial t t) in
  let help := snd (entryAt 0) in
  let nows := replicate (length (split 32 (Command.output help))) t in
  fst (entryAt 0) = js "help"
  ∧ run DEMO_COMMANDS w ((t, KeyDown Enter) :: ticks (t :: nows))
    = settled w (js "help")
        [inputLine t (js "help"); outputLine t (Command.output help)].
Proof.
  intros t w help nows. split; [reflexivity|].
  refine (proj2 (proj2 (proj2 (reveal_shows_full_output DEMO_COMMANDS w
            (js "help") (fst (entryAt 0)) help t t nows _ _ _ _ _)))).
  - by split.
  - done.
  - by split.
  - by vm_compute.
  - apply length_replicate.
Defined.

Lemma findCommand_none `{CaseFolding} (commands : list (str * Command.t))
    (command : str) :
  findCommand commands command = None ↔
  ∀ entry, entry ∈ commands →
    ¬ triggeredBy (normalize (toLowerCase (trim command)))
        (trim (replaceWhiteSpace (fst entry))).
Proof.
  unfold findCommand. rewrite find_none.
  apply forall_proper; intros entry.
  rewrite <- matchesKey_triggeredBy, not_true_iff_false. done.
Qed.

(** C6: a line that is a command (not blank, not "clear") and that no key
    of the table triggers, as it is or as a prefix, is answered by one line
    of kind error, which names the command as typed and points to "help";
    nothing else is written besides the echo of the input, and the widget
    is idle again and takes the next input. *)
Theorem unknown_command_reports_error `{CaseFolding}
    (commands : list (str * Command.t)) (w : State) (command now now' : str) :
  idle w → currentInput w = Some command → isCommand command →
  (∀ entry, entry ∈ commands →
     ¬ triggeredBy (normalize (toLowerCase (trim command)))
         (trim (replaceWhiteSpace (fst entry)))) →
  let w' := run commands w [(now, KeyDown Enter); (now', TimerFired 0)] in
  lines w' = lines w ++ [inputLine now command; errorLine now' command]
  ∧ type (errorLine now' command) = error
  ∧ content (errorLine now' command)
    = js "❌ Command not found: " ++ command ++
      10 :: js "Type 'help' to see available commands."
  ∧ idle w'
  ∧ ∀ later value,
      currentInput (dispatch commands later (Change value) w') = Some value.
Proof.
  intros Hidle Hinput Hcommand Hnone%findCommand_none w'.
  assert (w' = settled w command
                 [inputLine now command; errorLine now' command]) as ->.
  { unfold w'. change [(now, KeyDown Enter); (now', TimerFired 0)]
      with ((now, KeyDown Enter) :: ticks [now']).
    rewrite (submission_settles commands w now now' command []); try done.
    - by rewrite Hnone.
    - by rewrite Hnone. }
  split_and!; done.
Qed.

Lemma unknown_command_reports_error_witness :
  let t := js "09:00:00" in
  let w := setCurrentInput (Some (js "Deploy now")) (initial t t) in
  lines (run DEMO_COMMANDS w [(t, KeyDown Enter); (t, TimerFired 0)])
  = lines w ++ [inputLine t (js "Deploy now"); errorLine t (js "Deploy now")].
Proof.
  intros t w.
  refine (proj1 (unknown_command_reports_error DEMO_COMMANDS w
                   (js "Deploy now") t t _ _ _ _)).
  - by split.
  - done.
  - by split.
  - apply findCommand_none. by vm_compute.
Defined.

(** C7, amended: Enter on a command other than "clear" appends the input
    as typed (not trimmed, not lowercased) to the history and sets the
    cursor to -1; Enter on "clear" leaves the history and the cursor as
    they are. *)
Theorem command_submission_recorded `{CaseFolding}
    (commands : list (str * Command.t)) (now command : str) (w : State) :
  isProcessing w = false → currentInput w = Some command →
  let w' := dispatch commands now (KeyDown Enter) w in
  (isCommand command →
     commandHistory w' = commandHistory w ++ [command]
     ∧ historyIndex w' = (-1)%Z)
  ∧ (toLowerCase (trim command) = js "clear" →
     commandHistory w' = commandHistory w
     ∧ historyIndex w' = historyIndex w).
Proof.
  intros Hidle Hinput w'. split.
  - intros Hcommand. unfold w'.
    by rewrite (enter_command commands now command).
  - intros Hclear. unfold w'.
    by rewrite (enter_clear commands now command).
Qed.

Lemma command_submission_recorded_witness :
  let t := js "09:00:00" in
  let w := setCurrentInput (Some (js " Version  ")) (initial t t) in
  commandHistory (dispatch DEMO_COMMANDS t (KeyDown Enter) w) = [js " Version  "]
  ∧ historyIndex (dispatch DEMO_COMMANDS t (KeyDown Enter) w) = (-1)%Z.
Proof.
  intros t w.
  refine (proj1 (command_submission_recorded DEMO_COMMANDS t (js " Version  ")
                   w _ _) _).
  - done.
  - done.
  - by split.
Defined.

(** C7 as stated fails: "clear" can be submitted like any line, and it is
    neither appended to the history nor does it reset the cursor. Here
    "version" is submitted and answered, recalled with ArrowUp, and the
    input is edited to "clear" before Enter. *)
Lemma clear_submission_not_recorded :
  let t := js "09:00:00" in
  let w := run DEMO_COMMANDS (initial t t)
             (submit (js "version") t (replicate 10 t)
              ++ [(t, KeyDown ArrowUp); (t, Change (js "clear"))]) in
  let w' := dispatch DEMO_COMMANDS t (KeyDown Enter) w in
  isProcessing w = false
  ∧ currentInput w = Some (js "clear")
  ∧ lines w' = [cleared t]
  ∧ commandHistory w' = [js "version"]
  ∧ commandHistory w' ≠ commandHistory w ++ [js "clear"]
  ∧ historyIndex w' = 0%Z
  ∧ historyIndex w' ≠ (-1)%Z.
Proof. by vm_compute. Qed.

(** ** The history *)

Lemma submit_settles `{CaseFolding} (commands : list (str * Command.t))
    (w : State) (command now : str) (nows : list str) :
  idle w → isCommand command →
  length nows = pauses (findCommand commands command) →
  idle (run commands w (submit command now nows))
  ∧ commandHistory (run commands w (submit command now nows))
    = commandHistory w ++ [command]
  ∧ historyIndex (run commands w (submit command now nows)) = (-1)%Z.
Proof.
  intros [Hidle Htimers] Hcommand Hlen.
  destruct nows as [|now' nows].
  { by destruct (findCommand commands command) as [[??]|]. }
  unfold submit. rewrite run_cons. cbn [fst snd dispatch]. rewrite Hidle.
  rewrite (submission_settles commands _ now now' command nows); done.
Qed.

(** What the arrow keys do to the cursor and to the input. *)
Lemma arrowDown_recalls `{CaseFolding} (commands : list (str * Command.t))
    (now : str) (w : State) :
  (-1 < historyIndex w)%Z →
  handleKeyDown commands now ArrowDown w
  = if (Z.of_nat (length (commandHistory w)) <=? historyIndex w + 1)%Z
    then setCurrentInput (Some (js "")) (setHistoryIndex (-1) w)
    else setCurrentInput (index (commandHistory w) (historyIndex w + 1))
           (setHistoryIndex (historyIndex w + 1) w).
Proof.
  intros Hactive. unfold handleKeyDown.
  by rewrite (proj2 (Z.ltb_lt _ _) Hactive).
Qed.

Section Recall.
Context `{CaseFolding}.
Variable commands : list (str * Command.t).

Lemma index_middle {A} (before after : list A) (x : A) :
  index (before ++ x :: after) (Z.of_nat (length before)) = Some x.
Proof.
  unfold index. rewrite (proj2 (Z.ltb_ge _ _)) by lia.
  rewrite Nat2Z.id. apply list_lookup_middle. done.
Qed.

(** ArrowUp from the entry after [entry], or from an inactive cursor when
    [entry] is the newest, recalls [entry]. *)
Lemma recall_previous (now : str) (v : State) (before after : list str)
    (entry : str) :
  commandHistory v = before ++ entry :: after →
  historyIndex v = (Z.of_nat (length before) + 1)%Z
  ∨ (after = [] ∧ historyIndex v = (-1)%Z) →
  handleKeyDown commands now ArrowUp v
  = setCurrentInput (Some entry) (setHistoryIndex (Z.of_nat (length before)) v).
Proof.
  intros Hhistory Hcursor. unfold handleKeyDown. rewrite Hhistory.
  rewrite length_app. simpl length.
  rewrite (proj2 (Nat.ltb_lt _ _)) by lia.
  replace (if (historyIndex v =? -1)%Z
           then (Z.of_nat (length before + S (length after)) - 1)%Z
           else Z.max 0 (historyIndex v - 1))
    with (Z.of_nat (length before)).
  - by rewrite index_middle.
  - destruct Hcursor as [Hnext|[-> Hinactive]].
    + rewrite (proj2 (Z.eqb_neq _ _)) by lia. lia.
    + rewrite Hinactive. simpl. lia.
Qed.

(** ArrowUp on the oldest entry stays there. *)
Lemma recall_previous_clamped (now : str) (v : State) (after : list str)
    (entry : str) :
  commandHistory v = entry :: after → historyIndex v = 0%Z →
  handleKeyDown commands now ArrowUp v
  = setCurrentInput (Some entry) (setHistoryIndex 0 v).
Proof. intros Hhistory Hcursor. unfold handleKeyDown. by rewrite Hhistory, Hcursor. Qed.

(** ArrowDown from the entry before [entry] recalls [entry]. *)
Lemma recall_next (now : str) (v : State) (before after : list str)
    (entry : str) :
  commandHistory v = before ++ entry :: after →
  before ≠ [] → historyIndex v = (Z.of_nat (length before) - 1)%Z →
  handleKeyDown commands now ArrowDown v
  = setCurrentInput (Some entry) (setHistoryIndex (Z.of_nat (length before)) v).
Proof.
  intros Hhistory Hbefore Hcursor. unfold handleKeyDown.
  assert (0 < length before)%nat by (destruct before; [done | simpl; lia]).
  rewrite (proj2 (Z.ltb_lt _ _)) by lia.
  rewrite Hhistory, length_app. simpl length.
  rewrite (proj2 (Z.leb_gt _ _)) by lia.
  replace (historyIndex v + 1)%Z with (Z.of_nat (length before)) by lia.
  by rewrite index_middle.
Qed.

(** ArrowDown on the newest entry leaves the history. *)
Lemma recall_past_newest (now : str) (v : State) :
  commandHistory v ≠ [] →
  historyIndex v = (Z.of_nat (length (commandHistory v)) - 1)%Z →
  handleKeyDown commands now ArrowDown v
  = setCurrentInput (Some (js "")) (setHistoryIndex (-1) v).
Proof.
  intros Hhistory Hcursor. unfold handleKeyDown.
  assert (0 < length (commandHistory v))%nat
    by (destruct (commandHistory v); [done | simpl; lia]).
  rewrite (proj2 (Z.ltb_lt _ _)) by lia.
  by rewrite (proj2 (Z.leb_le _ _)) by lia.
Qed.

Lemma dispatch_key (now : str) (key : Key) (v : State) :
  isProcessing v = false →
  dispatch commands now (KeyDown key) v = handleKeyDown commands now key v.
Proof. intros Hidle. simpl. by rewrite Hidle. Qed.

(** Walking the last three entries of the history, up and down again. *)
Lemma recall_walk (now : str) (v : State) (older : list str) (A B C : str) :
  isProcessing v = false →
  commandHistory v = older ++ [A; B; C] → historyIndex v = (-1)%Z →
  let up := (now, KeyDown ArrowUp) in
  let down := (now, KeyDown ArrowDown) in
  let n := Z.of_nat (length older) in
  run commands v [up] = recalled v C (n + 2)
  ∧ run commands v [up; up] = recalled (recalled v C (n + 2)) B (n + 1)
  ∧ run commands v [up; up; up]
    = recalled (recalled (recalled v C (n + 2)) B (n + 1)) A n
  ∧ run commands v [up; up; up; up]
    = recalled (recalled (recalled (recalled v C (n + 2)) B (n + 1)) A n)
        (default A (last older)) (Z.max 0 (n - 1))
  ∧ run commands v [up; up; up; down]
    = recalled (recalled (recalled (recalled v C (n + 2)) B (n + 1)) A n) B (n + 1)
  ∧ run commands v [up; up; up; down; down]
    = recalled (recalled (recalled (recalled (recalled v C (n + 2)) B (n + 1))
                            A n) B (n + 1)) C (n + 2)
  ∧ run commands v [up; up; up; down; down; down]
    = recalled (recalled (recalled (recalled (recalled (recalled v C (n + 2))
                B (n + 1)) A n) B (n + 1)) C (n + 2)) (js "") (-1).
Proof.
  intros Hidle Hhistory Hcursor up down n.
  assert (run commands v [up] = recalled v C (n + 2)) as H1.
  { unfold up; rewrite run_cons; cbn [fst snd run foldl]. rewrite dispatch_key by done.
    rewrite (recall_previous now v (older ++ [A; B]) [] C).
    - rewrite length_app. simpl length. unfold recalled. do 2 f_equal. lia.
    - by rewrite <- app_assoc.
    - by right. }
  assert (run commands v [up; up]
          = recalled (recalled v C (n + 2)) B (n + 1)) as H2.
  { change [up; up] with ([up] ++ [up]). rewrite run_app, H1.
    unfold up; rewrite run_cons; cbn [fst snd run foldl]. rewrite dispatch_key by done.
    rewrite (recall_previous now _ (older ++ [A]) [C] B).
    - rewrite length_app. simpl length. unfold recalled. do 2 f_equal. lia.
    - simpl. by rewrite Hhistory, <- app_assoc.
    - left. rewrite length_app. simpl. lia. }
  assert (run commands v [up; up; up]
          = recalled (recalled (recalled v C (n + 2)) B (n + 1)) A n) as H3.
  { change [up; up; up] with ([up; up] ++ [up]). rewrite run_app, H2.
    unfold up; rewrite run_cons; cbn [fst snd run foldl]. rewrite dispatch_key by done.
    rewrite (recall_previous now _ older [B; C] A); [done | done |].
    left. simpl. lia. }
  assert (run commands v [up; up; up; down]
          = recalled (recalled (recalled (recalled v C (n + 2)) B (n + 1)) A n)
              B (n + 1)) as H4.
  { change [up; up; up; down] with ([up; up; up] ++ [down]). rewrite run_app, H3.
    unfold down; rewrite run_cons; cbn [fst snd run foldl]. rewrite dispatch_key by done.
    rewrite (recall_next now _ (older ++ [A]) [C] B).
    - rewrite length_app. simpl length. unfold recalled. do 2 f_equal. lia.
    - simpl. by rewrite Hhistory, <- app_assoc.
    - by destruct older.
    - rewrite length_app. simpl. lia. }
  assert (run commands v [up; up; up; down; down]
          = recalled (recalled (recalled (recalled (recalled v C (n + 2))
              B (n + 1)) A n) B (n + 1)) C (n + 2)) as H5.
  { change [up; up; up; down; down] with ([up; up; up; down] ++ [down]).
    rewrite run_app, H4.
    unfold down; rewrite run_cons; cbn [fst snd run foldl]. rewrite dispatch_key by done.
    rewrite (recall_next now _ (older ++ [A; B]) [] C).
    - rewrite length_app. simpl length. unfold recalled. do 2 f_equal. lia.
    - simpl. by rewrite Hhistory, <- app_assoc.
    - by destruct older.
    - rewrite length_app. simpl. lia. }
  split_and!; [done | done | done | | done | done |].
  - change [up; up; up; up] with ([up; up; up] ++ [up]).
    rewrite run_app, H3. unfold up; rewrite run_cons; cbn [fst snd run foldl].
    rewrite dispatch_key by done.
    destruct (decide (older = [])) as [Holder|Holder].
    + subst n. rewrite Holder in *.
      by rewrite (recall_previous_clamped now _ [B; C] A).
    + destruct (exists_last Holder) as (older' & entry & Holder').
      subst n. rewrite Holder' in *.
      rewrite (recall_previous now _ older' [A; B; C] entry).
      * rewrite last_snoc, length_app. simpl length. unfold recalled.
        simpl default. do 2 f_equal. lia.
      * simpl. by rewrite Hhistory, <- app_assoc.
      * left. simpl. rewrite length_app. simpl. lia.
  - change [up; up; up; down; down; down]
      with ([up; up; up; down; down] ++ [down]).
    rewrite run_app, H5. unfold down; rewrite run_cons; cbn [fst snd run foldl].
    rewrite dispatch_key by done.
    rewrite recall_past_newest; [done | |].
    + simpl. rewrite Hhistory. by destruct older.
    + simpl. rewrite Hhistory, length_app. simpl. lia.
Qed.

End Recall.

(** C4, amended: after A, B and C, lines that are neither blank nor
    "clear", have been submitted and answered, ArrowUp recalls C, then B,
    then A, whatever the history held before. A fourth ArrowUp goes on to
    the entry submitted before A when the history held one, and stays on A
    only when A is the oldest entry: the cursor is clamped at index 0, the
    oldest entry of the whole history, where ArrowUp changes nothing any
    more. ArrowDown from an active cursor goes one entry towards the newest,
    and past the newest it sets the cursor to -1 and empties the input. *)
Theorem history_recall `{CaseFolding} (commands : list (str * Command.t))
    (w : State) (A B C now : str) (nowsA nowsB nowsC : list str) :
  idle w →
  isCommand A → isCommand B → isCommand C →
  length nowsA = pauses (findCommand commands A) →
  length nowsB = pauses (findCommand commands B) →
  length nowsC = pauses (findCommand commands C) →
  let w3 := run commands w
              (submit A now nowsA ++ submit B now nowsB ++ submit C now nowsC) in
  let up := (now, KeyDown ArrowUp) in
  let down := (now, KeyDown ArrowDown) in
  commandHistory w3 = commandHistory w ++ [A; B; C]
  ∧ historyIndex w3 = (-1)%Z
  ∧ currentInput (run commands w3 [up]) = Some C
  ∧ currentInput (run commands w3 [up; up]) = Some B
  ∧ currentInput (run commands w3 [up; up; up]) = Some A
  ∧ currentInput (run commands w3 [up; up; up; up])
    = Some (default A (last (commandHistory w)))
  ∧ historyIndex (run commands w3 [up; up; up; up])
    = Z.max 0 (Z.of_nat (length (commandHistory w)) - 1)
  ∧ (∀ (v : State) (oldest : str) (newer : list str),
       commandHistory v = oldest :: newer → historyIndex v = 0%Z →
       historyIndex (handleKeyDown commands now ArrowUp v) = 0%Z
       ∧ currentInput (handleKeyDown commands now ArrowUp v) = Some oldest)
  ∧ currentInput (run commands w3 [up; up; up; down]) = Some B
  ∧ currentInput (run commands w3 [up; up; up; down; down]) = Some C
  ∧ currentInput (run commands w3 [up; up; up; down; down; down])
    = Some (js "")
  ∧ historyIndex (run commands w3 [up; up; up; down; down; down]) = (-1)%Z
  ∧ ∀ v : State,
      (-1 < historyIndex v)%Z →
      let v' := handleKeyDown commands now ArrowDown v in
      if (historyIndex v + 1 <? Z.of_nat (length (commandHistory v)))%Z
      then historyIndex v' = (historyIndex v + 1)%Z
           ∧ currentInput v' = index (commandHistory v) (historyIndex v + 1)
      else historyIndex v' = (-1)%Z ∧ currentInput v' = Some (js "").
Proof.
  intros Hidle HA HB HC HlenA HlenB HlenC w3 up down.
  destruct (submit_settles commands w A now nowsA Hidle HA HlenA)
    as (HidleA & HhistA & _).
  destruct (submit_settles commands _ B now nowsB HidleA HB HlenB)
    as (HidleB & HhistB & _).
  destruct (submit_settles commands _ C now nowsC HidleB HC HlenC)
    as ([HidleC _] & HhistC & HindexC).
  assert (run commands (run commands (run commands w (submit A now nowsA))
            (submit B now nowsB)) (submit C now nowsC) = w3) as Hw3
    by (unfold w3; by rewrite !run_app).
  rewrite Hw3 in HidleC, HhistC, HindexC.
  rewrite HhistB, HhistA, <- !app_assoc in HhistC. simpl in HhistC.
  clear Hw3. clearbody w3.
  destruct (recall_walk commands now w3 (commandHistory w) A B C
              HidleC HhistC HindexC)
    as (H1 & H2 & H3 & H4 & H5 & H6 & H7).
  fold up in H1, H2, H3, H4, H5, H6, H7.
  fold down in H5, H6, H7.
  split_and!; [done | done | by rewrite H1 | by rewrite H2 | by rewrite H3
              | by rewrite H4 | by rewrite H4
              | | by rewrite H5 | by rewrite H6 | by rewrite H7
              | by rewrite H7 |].
  - intros v oldest newer Hhistory Hcursor.
    by rewrite (recall_previous_clamped commands now v newer oldest).
  - intros v Hactive v'. unfold v'. rewrite arrowDown_recalls by done.
    rewrite Z.leb_antisym. by destruct (_ <? _)%Z.
Qed.

Lemma history_recall_witness :
  let t := js "09:00:00" in
  let A := js "version" in
  let B := js "Deploy now" in
  let C := js "ui-kit setup --verbose" in
  let firings command := replicate (pauses (findCommand DEMO_COMMANDS command)) t in
  let w3 := run DEMO_COMMANDS (initial t t)
              (submit A t (firings A) ++ submit B t (firings B)
               ++ submit C t (firings C)) in
  let up := (t, KeyDown ArrowUp) in
  currentInput (run DEMO_COMMANDS w3 [up]) = Some C
  ∧ currentInput (run DEMO_COMMANDS w3 [up; up]) = Some B
  ∧ currentInput (run DEMO_COMMANDS w3 [up; up; up]) = Some A
  ∧ currentInput (run DEMO_COMMANDS w3 [up; up; up; up]) = Some A.
Proof.
  intros t A B C firings w3 up.
  assert (idle (initial t t)) as Hidle by (by split).
  assert (isCommand A) as HA by (by split).
  assert (isCommand B) as HB by (by split).
  assert (isCommand C) as HC by (by split).
  destruct (history_recall DEMO_COMMANDS (initial t t) A B C t
              (firings A) (firings B) (firings C) Hidle HA HB HC
              (length_replicate _ _) (length_replicate _ _)
              (length_replicate _ _))
    as (_ & _ & HrecallC & HrecallB & HrecallA & HrecallA' & _).
  exact (conj HrecallC (conj HrecallB (conj HrecallA HrecallA'))).
Defined.

(** C4 as stated fails for a history that is not empty: here "whoami" was
    submitted before A, B and C, and the fourth ArrowUp leaves A for
    "whoami", the entry at index 0. *)
Lemma fourth_recall_leaves_A :
  let t := js "09:00:00" in
  let older := js "whoami" in
  let A := js "version" in
  let B := js "Deploy now" in
  let C := js "ui-kit setup --verbose" in
  let firings command := replicate (pauses (findCommand DEMO_COMMANDS command)) t in
  let w := run DEMO_COMMANDS (initial t t) (submit older t (firings older)) in
  let w3 := run DEMO_COMMANDS w
              (submit A t (firings A) ++ submit B t (firings B)
               ++ submit C t (firings C)) in
  let up := (t, KeyDown ArrowUp) in
  reachable DEMO_COMMANDS w
  ∧ idle w
  ∧ commandHistory w = [older]
  ∧ commandHistory w3 = [older; A; B; C]
  ∧ currentInput (run DEMO_COMMANDS w3 [up; up; up]) = Some A
  ∧ currentInput (run DEMO_COMMANDS w3 [up; up; up; up]) = Some older
  ∧ currentInput (run DEMO_COMMANDS w3 [up; up; up; up]) ≠ Some A
  ∧ historyIndex (run DEMO_COMMANDS w3 [up; up; up; up]) = 0%Z.
Proof.
  intros t older A B C firings w w3 up.
  split; [apply reachable_run; constructor|]. by vm_compute.
Qed.

(** ** Invariants *)

Section Invariants.
Context `{CaseFolding}.
Variable commands : list (str * Command.t).

(** What [executeCommand] may do, up to its first [await]. *)
Lemma executeCommand_cases (now command : str) (w : State) :
  (toLowerCase (trim command) = js "clear"
   ∧ executeCommand commands now command w = setLines (λ _, [cleared now]) w)
  ∨ (trim command = js "" ∧ executeCommand commands now command w = w)
  ∨ (isCommand command
     ∧ setCurrentInput (Some (js "")) (executeCommand commands now command w)
       = started commands w now command).
Proof.
  destruct (decide (toLowerCase (trim command) = js "clear")) as [Hclear|Hclear].
  { left. split; [done|]. by apply executeCommand_clear. }
  destruct (decide (trim command = js "")) as [Hblank|Hblank].
  { right; left. split; [done|]. by apply executeCommand_blank. }
  right; right. split; [done|]. by apply executeCommand_command.
Qed.

(** The arrow keys only move the cursor and set the input. *)
Lemma arrow_frame (now : str) (key : Key) (w : State) :
  key = ArrowUp ∨ key = ArrowDown →
  lines (handleKeyDown commands now key w) = lines w
  ∧ isProcessing (handleKeyDown commands now key w) = isProcessing w
  ∧ commandHistory (handleKeyDown commands now key w) = commandHistory w
  ∧ timers (handleKeyDown commands now key w) = timers w.
Proof.
  intros [->| ->]; unfold handleKeyDown.
  - by destruct (0 <? _)%nat.
  - destruct (-1 <? _)%Z; [|done]. by destruct (_ <=? _)%Z.
Qed.

(** What an event of the user may do. *)
Lemma user_event_cases (now : str) (e : Event) (w : State) :
  (∀ n, e ≠ TimerFired n) →
  dispatch commands now e w = w
  ∨ isProcessing w = false
    ∧ ((∃ value, dispatch commands now e w = setCurrentInput (Some value) w)
       ∨ (∃ key, (key = ArrowUp ∨ key = ArrowDown) ∧ e = KeyDown key
            ∧ dispatch commands now e w = handleKeyDown commands now key w)
       ∨ (∃ text, e = KeyDown Enter ∧ currentInput w = Some text
            ∧ toLowerCase (trim text) = js "clear"
            ∧ dispatch commands now e w
              = setCurrentInput (Some (js "")) (setLines (λ _, [cleared now]) w))
       ∨ (∃ text, e = KeyDown Enter ∧ currentInput w = Some text
            ∧ isCommand text
            ∧ dispatch commands now e w = started commands w now text)).
Proof.
  intros Huser. destruct (isProcessing w) eqn:Hprocessing.
  { left. destruct e as [key|value|n|n]; simpl; rewrite ?Hprocessing; try done.
    by destruct (Huser n). }
  destruct e as [[| | |]|value|n|n]; unfold dispatch; rewrite ?Hprocessing.
  - unfold handleKeyDown. rewrite Hprocessing.
    destruct (currentInput w) as [text|] eqn:Hinput; [|by left].
    destruct (executeCommand_cases now text w)
      as [[Hclear ->]|[[Hblank ->]|[Hcommand Hstarted]]].
    + rewrite bool_decide_eq_false_2 by by apply clear_is_not_blank.
      right. split; [done|]. do 2 right; left. by exists text.
    + rewrite bool_decide_eq_true_2 by done. by left.
    + rewrite bool_decide_eq_false_2 by apply Hcommand.
      right. split; [done|]. do 3 right. by exists text.
  - right. split; [done|]. right; left. exists ArrowUp. eauto.
  - right. split; [done|]. right; left. exists ArrowDown. eauto.
  - by left.
  - right. split; [done|]. left. eauto.
  - destruct (SUGGESTIONS !! n); [|by left]. unfold handleSuggestionClick.
    rewrite Hprocessing. right. split; [done|]. left. eauto.
  - by destruct (Huser n).
Qed.

(** What the suspended [executeCommand] may do when its timer fires. *)
Lemma resume_cases (now : str) (rest : Task) (w : State) :
  (∃ command, resume now rest w
              = setIsProcessing false
                  (setLines (λ prev, prev ++ [errorLine now command]) w))
  ∨ (∃ task text, resume now rest w
                  = await task
                      (setLines (λ prev, prev ++ [outputLine now text]) w))
  ∨ (∃ task text timestamp,
       resume now rest w
       = await task (setLines (revealed text timestamp) w))
  ∨ resume now rest w = setIsProcessing false w.
Proof.
  destruct rest as [[[key config]|] command|words i text timestamp delay].
  - right; left. simpl. rewrite reveal_starts. eauto.
  - left. by exists command.
  - simpl. unfold typewriterLoop. destruct (words !! S i); [|by right; right; right].
    right; right; left. eauto.
Qed.

Lemma timer_event_cases (now : str) (n : nat) (w : State) :
  dispatch commands now (TimerFired n) w = w
  ∨ ∃ rest, timers w !! n = Some rest
            ∧ dispatch commands now (TimerFired n) w
              = resume now rest (fired n w).
Proof. simpl. destruct (timers w !! n); eauto. Qed.

Lemma oneTask_dispatch (now : str) (e : Event) (w : State) :
  oneTask w → oneTask (dispatch commands now e w).
Proof.
  intros [Hlen Hiff]. destruct e as [key|value|n|n].
  1-3: edestruct (user_event_cases now) as [->|[Hidle Hcases]]; [done| done | ].
  1-3: assert (timers w = []) as Htimers
         by (destruct (timers w); [done|]; rewrite (proj2 Hiff) in Hidle; done).
  1-3: destruct Hcases as [(v & ->) | [(k & Hk & _ & ->)
                          |[(text & _ & _ & _ & ->)|(text & _ & _ & _ & ->)]]];
       unfold oneTask;
       try (destruct (arrow_frame now k w Hk) as (_ & -> & _ & ->));
       simpl; rewrite ?Htimers, ?Hidle; simpl; (split; [lia | split; done]).
  destruct (timer_event_cases now n w) as [->|(rest & Hrest & ->)]; [done|].
  assert (timers w = [rest] ∧ n = 0%nat) as [Htimers ->].
  { destruct (timers w) as [|t [|t' ts]]; simpl in *; [done| |lia].
    destruct n; simpl in Hrest; [by injection Hrest as ->|done]. }
  assert (isProcessing w = true) as Hprocessing by (apply Hiff; by rewrite Htimers).
  destruct (resume_cases now rest (fired 0 w))
    as [[command ->]|[(task & text & ->)|[(task & text & timestamp & ->)| ->]]];
    unfold oneTask; simpl; rewrite ?Htimers, ?Hprocessing; simpl;
    (split; [lia | split; done]).
Qed.

Lemma oneTask_reachable (w : State) : reachable commands w → oneTask w.
Proof.
  induction 1 as [t0 t1|now e w _ IH]; [|by apply oneTask_dispatch].
  split; simpl; [lia | split; done].
Qed.

(** *** The cursor of the history *)

Lemma index_valid {A} (a : list A) (i : Z) :
  (0 ≤ i < Z.of_nat (length a))%Z →
  ∃ x, index a i = Some x ∧ a !! Z.to_nat i = Some x.
Proof.
  intros Hi. unfold index. rewrite (proj2 (Z.ltb_ge _ _)) by lia.
  destruct (lookup_lt_is_Some_2 a (Z.to_nat i)) as [x Hx]; [lia|]. eauto.
Qed.

(** ArrowUp and ArrowDown keep the cursor valid, and when they leave it
    active the input is the entry it points at. *)
Lemma arrow_recalls (now : str) (key : Key) (w : State) :
  key = ArrowUp ∨ key = ArrowDown → cursorValid w →
  cursorValid (handleKeyDown commands now key w)
  ∧ (historyIndex (handleKeyDown commands now key w) ≠ (-1)%Z →
     ∃ entry,
       commandHistory (handleKeyDown commands now key w)
         !! Z.to_nat (historyIndex (handleKeyDown commands now key w))
       = Some entry
       ∧ currentInput (handleKeyDown commands now key w) = Some entry)
  ∧ (is_Some (currentInput w) →
     is_Some (currentInput (handleKeyDown commands now key w))).
Proof.
  unfold cursorValid. intros [->| ->] Hvalid; unfold handleKeyDown.
  - destruct (commandHistory w) as [|first rest] eqn:Hhistory.
    { simpl in *. rewrite Hhistory. split_and!; [lia | lia | done]. }
    cbn [Nat.ltb Nat.leb length].
    set (newIndex := if (historyIndex w =? -1)%Z
                     then (Z.of_nat (S (length rest)) - 1)%Z
                     else Z.max 0 (historyIndex w - 1)).
    assert (0 ≤ newIndex < Z.of_nat (length (first :: rest)))%Z as Hnew.
    { unfold newIndex. simpl length in *.
      destruct (Z.eqb_spec (historyIndex w) (-1)); lia. }
    destruct (index_valid (first :: rest) newIndex Hnew) as (entry & Hentry & Hlookup).
    simpl. rewrite Hhistory, Hentry. split_and!; eauto.
  - destruct (Z.ltb_spec (-1) (historyIndex w)) as [Hactive|Hinactive].
    2: { split_and!; [done | lia | done]. }
    destruct (Z.leb_spec (Z.of_nat (length (commandHistory w)))
                (historyIndex w + 1)) as [Hpast|Hnext].
    { simpl. split_and!; [by left | done | done]. }
    destruct (index_valid (commandHistory w) (historyIndex w + 1))
      as (entry & Hentry & Hlookup); [lia|].
    simpl. rewrite Hentry. split_and!; eauto. right. lia.
Qed.

Lemma wellFormed_dispatch (now : str) (e : Event) (w : State) :
  wellFormed w → wellFormed (dispatch commands now e w).
Proof.
  intros [Hvalid Hinput]. destruct e as [key|value|n|n].
  1-3: edestruct (user_event_cases now) as [->|[_ Hcases]]; [done | done |].
  1-3: destruct Hcases as [(v & ->) | [(k & Hk & _ & ->)
                          |[(text & _ & _ & _ & ->)|(text & _ & _ & _ & ->)]]];
       try (destruct (arrow_recalls now k w Hk Hvalid) as (? & _ & ?));
       try (split; [done | by eauto]);
       try (split; [by left | by eexists]).
  destruct (timer_event_cases now n w) as [->|(rest & _ & ->)]; [done|].
  destruct (resume_cases now rest (fired n w))
    as [[command ->]|[(task & text & ->)|[(task & text & timestamp & ->)| ->]]];
    done.
Qed.

Lemma wellFormed_reachable (w : State) : reachable commands w → wellFormed w.
Proof.
  induction 1 as [t0 t1|now e w _ IH]; [|by apply wellFormed_dispatch].
  split; [by left | by eexists].
Qed.


End Invariants.

(** ** What is pending *)

Section Pending.
Context `{CaseFolding}.
Variable commands : list (str * Command.t).

Lemma findCommand_elem (command : str) (entry : str * Command.t) :
  findCommand commands command = Some entry → entry ∈ commands.
Proof.
  intros (before & after & -> & _)%findCommand_first.
  rewrite elem_of_app, elem_of_cons. auto.
Qed.

Lemma pendingConsistent_dispatch (now : str) (e : Event) (w : State) :
  oneTask w → pendingConsistent commands w →
  pendingConsistent commands (dispatch commands now e w).
Proof.
  intros [Hlen Hiff] Hpending. destruct e as [key|value|n|n].
  1-3: edestruct (user_event_cases commands now) as [->|[Hidle Hcases]];
       [done | done |].
  1-3: assert (timers w = []) as Htimers
         by (destruct (timers w); [done|]; rewrite (proj2 Hiff) in Hidle; done).
  1-3: destruct Hcases as [(v & ->) | [(k & Hk & _ & ->)
                          |[(text & _ & _ & _ & ->)|(text & _ & _ & _ & ->)]]];
       unfold pendingConsistent;
       try (destruct (arrow_frame commands now k w Hk) as (_ & _ & _ & ->));
       cbn [timers started setCurrentInput setLines]; rewrite ?Htimers;
       try done;
       (intros task [= <-]; cbn [taskConsistent lines commandHistory];
        split_and!;
        [done | by eexists _, _ | unfold started; simpl; by rewrite last_snoc]).
  destruct (timer_event_cases commands now n w) as [->|(rest & Hrest & ->)];
    [done|].
  assert (timers w = [rest] ∧ n = 0%nat) as [Htimers ->].
  { destruct (timers w) as [|t [|t' ts]]; simpl in *; [done| |lia].
    destruct n; simpl in Hrest; [by injection Hrest as ->|done]. }
  specialize (Hpending rest). rewrite Htimers in Hpending.
  specialize (Hpending eq_refl). unfold pendingConsistent.
  destruct rest as [[[key config]|] command|words i text timestamp delay].
  - destruct Hpending as (Hfound & _). symmetry in Hfound.
    apply findCommand_elem in Hfound.
    cbn [resume]. rewrite reveal_starts. unfold await, setLines, fired.
    cbn [lines timers currentInput isProcessing commandHistory historyIndex].
    rewrite Htimers. cbn [delete list_delete app lookup list_lookup timers].
    intros task [= <-]. cbn [taskConsistent lines]. split_and!.
    + by exists key, config.
    + pose proof (split_nonempty 32 (Command.output config)).
      destruct (split 32 (Command.output config)); [done | simpl; lia].
    + done.
    + by eexists.
  - cbn [resume lines timers setIsProcessing addLine setLines fired
         delete list_delete]. by rewrite Htimers.
  - destruct Hpending as (Hentry & Hi & -> & init & Hlines).
    cbn [resume]. unfold typewriterLoop.
    destruct (words !! S i) as [word|] eqn:Hword.
    + unfold await, setLines, fired.
      cbn [lines timers currentInput isProcessing commandHistory historyIndex
           Nat.ltb Nat.leb].
      rewrite Htimers, Hlines, revealed_last by done.
      cbn [delete list_delete app lookup list_lookup timers].
      intros task [= <-]. cbn [taskConsistent lines]. split_and!.
      * done.
      * by apply lookup_lt_Some in Hword.
      * rewrite (take_S_r words (S i) word) by done.
        rewrite joinWords_snoc; [done|]. by destruct words.
      * by eexists.
    + cbn [lines timers setIsProcessing fired]. by rewrite Htimers.
Qed.

Lemma pendingConsistent_reachable (w : State) :
  reachable commands w → pendingConsistent commands w.
Proof.
  induction 1 as [t0 t1|now e w Hw IH]; [done|].
  by apply pendingConsistent_dispatch; [apply (oneTask_reachable commands)|].
Qed.

(** A state in the middle of a reveal, as [revealing] writes it. *)
Lemma revealing_eta (w : State) (init : list TerminalLine) (words : list str)
    (i : nat) (timestamp : str) (delay : N) :
  isProcessing w = true →
  timers w = [AfterWordDelay words i (joinWords (take (S i) words))
                timestamp delay] →
  lines w = init ++ [outputLine timestamp (joinWords (take (S i) words))] →
  w = revealing w init words i timestamp delay.
Proof.
  intros Hprocessing Htimers Hlines. unfold revealing.
  rewrite <- Hprocessing, <- Htimers, <- Hlines. by destruct w.
Qed.

Lemma revealing_runs (w : State) (base : list TerminalLine) (words : list str)
    (i : nat) (timestamp : str) (delay : N) (nows : list str) :
  (i < length words)%nat →
  ((length nows < length words - i)%nat →
   isProcessing (run commands (revealing w base words i timestamp delay)
                   (ticks nows)) = true)
  ∧ (length nows = (length words - i)%nat →
     idle (run commands (revealing w base words i timestamp delay)
             (ticks nows))).
Proof.
  intros Hi. split.
  - intros Hlen. by rewrite reveal_steps by lia.
  - intros Hlen. assert (nows ≠ []) as Hnows by (intros ->; simpl in Hlen; lia).
    destruct (exists_last Hnows) as (nows' & now & ->).
    rewrite length_app, Nat.add_1_r in Hlen.
    unfold ticks. rewrite fmap_app, run_app. fold (ticks nows').
    rewrite reveal_steps by lia.
    cbn [fmap list_fmap]. rewrite run_cons. cbn [fst snd run foldl].
    rewrite reveal_ends by lia. by split.
Qed.


End Pending.

(** ** The claims about reachable states *)

(** C5: in every state the widget can reach, at most one timer of
    [executeCommand] is pending, and the processing flag is set exactly
    while one is; while it is set, Enter (and every other event of the
    user) leaves the whole state, so also the transcript, as it is; a user
    event that changes the transcript therefore finds the flag cleared and
    no reveal in flight. *)
Theorem one_reveal_in_flight `{CaseFolding}
    (commands : list (str * Command.t)) (w : State) :
  reachable commands w →
  (length (timers w) ≤ 1)%nat
  ∧ (isProcessing w = true ↔ timers w ≠ [])
  ∧ (isProcessing w = true →
     ∀ now,
       handleKeyDown commands now Enter w = w
       ∧ ∀ e, (∀ n, e ≠ TimerFired n) → dispatch commands now e w = w)
  ∧ (∀ now e,
       (∀ n, e ≠ TimerFired n) →
       lines (dispatch commands now e w) ≠ lines w →
       isProcessing w = false ∧ timers w = []).
Proof.
  intros [Hlen Hiff]%oneTask_reachable.
  assert (isProcessing w = true →
          ∀ now e, (∀ n, e ≠ TimerFired n) → dispatch commands now e w = w)
    as Hblocked.
  { intros Hprocessing now [key|value|n|n] Huser; simpl;
      rewrite ?Hprocessing; [done..|]. by destruct (Huser n). }
  split_and!; [done | done | |].
  - intros Hprocessing now. split; [|by apply Hblocked].
    unfold handleKeyDown. rewrite Hprocessing. by destruct (currentInput w).
  - intros now e Huser Hchanged.
    destruct (isProcessing w) eqn:Hprocessing.
    { destruct Hchanged. by rewrite (Hblocked eq_refl now e Huser). }
    split; [done|]. destruct (timers w) as [|task rest]; [done|].
    assert (false = true) as Habsurd by (by apply Hiff). discriminate.
Qed.

Lemma one_reveal_in_flight_witness :
  let t := js "09:00:00" in
  let w := run DEMO_COMMANDS (initial t t)
             [(t, Change (js "help")); (t, KeyDown Enter); (t, TimerFired 0%nat);
              (t, TimerFired 0%nat)] in
  isProcessing w = true
  ∧ length (timers w) = 1%nat
  ∧ dispatch DEMO_COMMANDS t (KeyDown Enter) w = w.
Proof.
  intros t w.
  assert (reachable DEMO_COMMANDS w) as Hw
    by (apply reachable_run; constructor).
  destruct (one_reveal_in_flight DEMO_COMMANDS w Hw)
    as (_ & _ & Hblocked & _).
  split_and!; [reflexivity | reflexivity |].
  apply (Hblocked eq_refl t). intros n. discriminate.
Defined.

(** C8, amended: in every state the widget can reach, the cursor of the
    history is -1 or the index of an entry, and every event keeps it so;
    right after ArrowUp or ArrowDown, a cursor that is active points at the
    entry that was put in the input; typing and a click on a suggestion set
    the input and leave the cursor where it is. *)
Theorem cursor_stays_valid `{CaseFolding}
    (commands : list (str * Command.t)) (w : State) :
  reachable commands w →
  cursorValid w
  ∧ (∀ now e, cursorValid (dispatch commands now e w))
  ∧ (∀ now key,
       key = ArrowUp ∨ key = ArrowDown →
       historyIndex (handleKeyDown commands now key w) ≠ (-1)%Z →
       ∃ entry,
         commandHistory (handleKeyDown commands now key w)
           !! Z.to_nat (historyIndex (handleKeyDown commands now key w))
         = Some entry
         ∧ currentInput (handleKeyDown commands now key w) = Some entry)
  ∧ (∀ now value,
       isProcessing w = false →
       currentInput (dispatch commands now (Change value) w) = Some value
       ∧ historyIndex (dispatch commands now (Change value) w)
         = historyIndex w)
  ∧ (∀ now n suggestion,
       isProcessing w = false → SUGGESTIONS !! n = Some suggestion →
       currentInput (dispatch commands now (SuggestionClick n) w)
       = Some suggestion
       ∧ historyIndex (dispatch commands now (SuggestionClick n) w)
         = historyIndex w).
Proof.
  intros Hw. pose proof (wellFormed_reachable commands w Hw) as [Hvalid _].
  split_and!.
  - done.
  - intros now e. eapply wellFormed_reachable. by constructor.
  - intros now key Hkey. by apply arrow_recalls.
  - intros now value Hidle. simpl. by rewrite Hidle.
  - intros now n suggestion Hidle Hsuggestion. simpl.
    unfold handleSuggestionClick. by rewrite Hidle, Hsuggestion.
Qed.

Lemma cursor_stays_valid_witness :
  let t := js "09:00:00" in
  let w := run DEMO_COMMANDS (initial t t)
             (submit (js "version") t (replicate 10 t)
              ++ [(t, KeyDown ArrowUp)]) in
  cursorValid w ∧ historyIndex w = 0%Z ∧ currentInput w = Some (js "version").
Proof.
  intros t w.
  assert (reachable DEMO_COMMANDS w) as Hw
    by (apply reachable_run; constructor).
  split; [exact (proj1 (cursor_stays_valid DEMO_COMMANDS w Hw))|].
  split; reflexivity.
Defined.

(** C8 as stated fails: after "version" has been answered and recalled
    with ArrowUp, typing one more letter leaves the cursor on entry 0 while
    the input is no longer that entry. *)
Lemma typing_leaves_cursor_active :
  let t := js "09:00:00" in
  let w := run DEMO_COMMANDS (initial t t)
             (submit (js "version") t (replicate 10 t)
              ++ [(t, KeyDown ArrowUp); (t, Change (js "versions"))]) in
  reachable DEMO_COMMANDS w
  ∧ historyIndex w = 0%Z
  ∧ commandHistory w !! 0%nat = Some (js "version")
  ∧ currentInput w = Some (js "versions")
  ∧ currentInput w ≠ commandHistory w !! 0%nat.
Proof.
  intros t w. split; [apply reachable_run; constructor|]. by vm_compute.
Qed.




(** * Further properties *)

(** ** More on strings *)

Lemma replaceRuns_spaced (inRun : bool) (s : str) :
  spaced (replaceRuns inRun s)
  ∧ (inRun = true →
     match replaceRuns inRun s with
     | d :: _ => isWhiteSpace d = false
     | [] => True
     end).
Proof.
  revert inRun. induction s as [|c s IH]; intros inRun; [done|]. simpl.
  destruct (isWhiteSpace c) eqn:Hc.
  - destruct inRun; [apply IH|]. destruct (IH true) as [Hspaced Hhead].
    split; [|done]. simpl. split; [|done]. intros _. split; [done|]. by apply Hhead.
  - destruct (IH false) as [Hspaced _]. split; [|done]. simpl.
    split; [|done]. intros Hws. congruence.
Qed.

Lemma spaced_app_r (before s : str) : spaced (before ++ s) → spaced s.
Proof. induction before as [|c before IH]; [done|]. intros [_ Hrest]. by apply IH. Qed.

Lemma spaced_app_l (s after : str) : spaced (s ++ after) → spaced s.
Proof.
  induction s as [|c s IH]; [done|]. simpl. intros [Hhead Hrest].
  split; [|by apply IH]. intros Hc. destruct (Hhead Hc) as [-> Hnext].
  split; [done|]. by destruct s.
Qed.

Lemma normalize_spaced (s : str) : spaced (normalize s).
Proof.
  unfold normalize.
  destruct (trim_split (replaceWhiteSpace s)) as (before & after & Hs & _).
  pose proof (proj1 (replaceRuns_spaced false s)) as Hspaced.
  fold (replaceWhiteSpace s) in Hspaced. rewrite Hs in Hspaced.
  by apply spaced_app_r, spaced_app_l in Hspaced.
Qed.

(** X1: in what [executeCommand] compares with the keys, every white space
    is one space that stands between two code units that are not white
    space: none at either end, never two in a row, no tab or line feed. *)
Theorem normalized_white_space_is_single_spaces (s before after : str) (c : N) :
  normalize s = before ++ c :: after → isWhiteSpace c = true →
  c = 32
  ∧ (∃ b before', before = before' ++ [b] ∧ isWhiteSpace b = false)
  ∧ (∃ d after', after = d :: after' ∧ isWhiteSpace d = false).
Proof.
  intros Hs Hc. pose proof (normalize_spaced s) as Hspaced.
  rewrite Hs in Hspaced.
  destruct (spaced_app_r _ _ Hspaced) as [Hhere _].
  destruct (Hhere Hc) as [-> Hnext]. split_and!; [done| |].
  - destruct before as [|b1 before1].
    { apply trim_head in Hs. congruence. }
    assert (b1 :: before1 ≠ []) as Hne by done.
    destruct (exists_last Hne) as (before' & b0 & Hbefore).
    rewrite Hbefore in Hspaced |- *. exists b0, before'. split; [done|].
    rewrite <- app_assoc in Hspaced. apply spaced_app_r in Hspaced.
    destruct Hspaced as [Hb _]. destruct (isWhiteSpace b0) eqn:Hb0; [|done].
    destruct (Hb eq_refl) as [_ Hfollow]. simpl in Hfollow. congruence.
  - destruct after as [|d after'].
    { apply trim_last in Hs. congruence. }
    by exists d, after'.
Qed.

Lemma normalized_white_space_is_single_spaces_witness :
  32 = 32
  ∧ (∃ b before', js "ui-kit" = before' ++ [b] ∧ isWhiteSpace b = false)
  ∧ (∃ d after', js "setup" = d :: after' ∧ isWhiteSpace d = false).
Proof.
  exact (normalized_white_space_is_single_spaces
           (js "  ui-kit " ++ 9 :: js "  setup  ")
           (js "ui-kit") (js "setup") 32 eq_refl eq_refl).
Defined.

(** X2: white space typed before or after a command changes neither what
    [executeCommand] compares with "clear" and with the empty string nor
    the entry it finds. *)
Theorem padding_is_ignored `{CaseFolding} (commands : list (str * Command.t))
    (before command after : str) :
  Forall (λ c, isWhiteSpace c = true) before →
  Forall (λ c, isWhiteSpace c = true) after →
  toLowerCase (trim (before ++ command ++ after)) = toLowerCase (trim command)
  ∧ findCommand commands (before ++ command ++ after)
    = findCommand commands command.
Proof.
  intros Hbefore Hafter. unfold findCommand. by rewrite trim_pad.
Qed.

Lemma padding_is_ignored_witness :
  toLowerCase (trim (js "  " ++ js "help" ++ [9; 32]))
  = toLowerCase (trim (js "help"))
  ∧ findCommand DEMO_COMMANDS (js "  " ++ js "help" ++ [9; 32])
    = findCommand DEMO_COMMANDS (js "help").
Proof.
  apply (padding_is_ignored DEMO_COMMANDS (js "  ") (js "help") [9; 32]);
    repeat constructor.
Defined.

Lemma lowerAscii_white_space (c : N) :
  isWhiteSpace (lowerAscii c) = isWhiteSpace c.
Proof.
  unfold lowerAscii.
  destruct (N.leb_spec 65 c) as [Hlow|Hlow]; [|done].
  destruct (N.leb_spec c 90) as [Hhigh|Hhigh]; [|done]. simpl.
  unfold isWhiteSpace.
  repeat match goal with
         | |- context [(?a <=? ?b)] => destruct (N.leb_spec a b); try lia
         | |- context [(?a =? ?b)] => destruct (N.eqb_spec a b); try lia
         end; done.
Qed.

Lemma trimStart_lowerAscii (s : str) :
  trimStart (lowerAscii <$> s) = lowerAscii <$> trimStart s.
Proof.
  induction s as [|c s IH]; [done|]. cbn [fmap list_fmap trimStart].
  rewrite lowerAscii_white_space. by destruct (isWhiteSpace c).
Qed.

Lemma fmap_rev {A B} (f : A → B) (l : list A) : f <$> rev l = rev (f <$> l).
Proof.
  induction l as [|a l IH]; [done|]. simpl. by rewrite fmap_app, IH.
Qed.

Lemma trim_lowerAscii (s : str) :
  trim (lowerAscii <$> s) = lowerAscii <$> trim s.
Proof.
  unfold trim, trimEnd. rewrite trimStart_lowerAscii.
  rewrite <- fmap_rev, trimStart_lowerAscii. by rewrite fmap_rev.
Qed.

Lemma trim_ascii (s : str) : Forall isAscii s → Forall isAscii (trim s).
Proof.
  intros Hs. destruct (trim_split s) as (before & after & Hsplit & _).
  rewrite Hsplit in Hs. by apply Forall_app in Hs as [_ [Htrim _]%Forall_app].
Qed.

(** X3: two inputs of ASCII characters that differ only in the case of
    letters are the same to [executeCommand]: it compares the same text
    with "clear" and finds the same entry. *)
Theorem ascii_case_is_ignored `{CaseFolding} (commands : list (str * Command.t))
    (command command' : str) :
  Forall isAscii command → Forall isAscii command' →
  lowerAscii <$> command = lowerAscii <$> command' →
  toLowerCase (trim command) = toLowerCase (trim command')
  ∧ findCommand commands command = findCommand commands command'.
Proof.
  intros Hascii Hascii' Hsame.
  assert (toLowerCase (trim command) = toLowerCase (trim command')) as Hlowered.
  { rewrite !toLowerCase_ascii by by apply trim_ascii.
    by rewrite <- !trim_lowerAscii, Hsame. }
  split; [done|]. unfold findCommand. by rewrite Hlowered.
Qed.

Lemma ascii_case_is_ignored_witness :
  toLowerCase (trim (js "UI-Kit Setup")) = toLowerCase (trim (js "ui-kit setup"))
  ∧ findCommand DEMO_COMMANDS (js "UI-Kit Setup")
    = findCommand DEMO_COMMANDS (js "ui-kit setup").
Proof.
  apply (ascii_case_is_ignored DEMO_COMMANDS (js "UI-Kit Setup")
           (js "ui-kit setup")); [ascii_text | ascii_text | reflexivity].
Defined.

(** ** The table and the suggestions *)

Lemma triggeredBy_suffix (normalized trigger : str) :
  triggeredBy normalized trigger ↔
  ∃ suffix, normalized = trigger ++ suffix
            ∧ (suffix = [] ∨ ∃ rest, suffix = 32 :: rest).
Proof.
  unfold triggeredBy. split.
  - intros [->|[rest ->]].
    + exists []. split; [by rewrite app_nil_r | by left].
    + exists (32 :: rest). split; [done | right; by exists rest].
  - intros (suffix & -> & [->|[rest ->]]).
    + left. by rewrite app_nil_r.
    + right. by exists rest.
Qed.

(** An input triggers two keys only if they are equal or one of them
    continues the other after a space. *)
Lemma triggeredBy_two (normalized key key' : str) :
  triggeredBy normalized key → triggeredBy normalized key' →
  key = key'
  ∨ startsWith key (key' ++ js " ") = true
  ∨ startsWith key' (key ++ js " ") = true.
Proof.
  intros (suffix & -> & Hsuffix)%triggeredBy_suffix
         (suffix' & Heq & Hsuffix')%triggeredBy_suffix.
  apply app_eq_inv in Heq as [(more & -> & ->)|(more & -> & ->)].
  - destruct more as [|c more].
    { left. by rewrite app_nil_r. }
    right; left. apply startsWith_prefix. exists more.
    destruct Hsuffix' as [Hnil|[rest Hrest]]; [done|].
    injection Hrest as -> _. by rewrite <- app_assoc.
  - destruct more as [|c more].
    { left. by rewrite app_nil_r. }
    right; right. apply startsWith_prefix. exists more.
    destruct Hsuffix as [Hnil|[rest Hrest]]; [done|].
    injection Hrest as -> _. by rewrite <- app_assoc.
Qed.

Lemma DEMO_COMMANDS_distinct (normalized : str) (entry entry' : str * Command.t) :
  entry ∈ DEMO_COMMANDS → entry' ∈ DEMO_COMMANDS →
  triggeredBy normalized (fst entry) → triggeredBy normalized (fst entry') →
  entry = entry'.
Proof.
  intros Hentry Hentry' Htriggered Htriggered'.
  pose proof (triggeredBy_two _ _ _ Htriggered Htriggered') as Hkeys.
  clear Htriggered Htriggered'. unfold DEMO_COMMANDS in Hentry, Hentry'.
  rewrite !elem_of_cons, elem_of_nil in Hentry, Hentry'.
  destruct Hentry as [->|[->|[->|[->|[->|[]]]]]];
    destruct Hentry' as [->|[->|[->|[->|[->|[]]]]]];
    try reflexivity;
    vm_compute in Hkeys; destruct Hkeys as [?|[?|?]]; discriminate.
Qed.

(** X4: no input triggers two entries of [DEMO_COMMANDS], so the entry
    found does not depend on the order of the table: it is the one entry
    whose trigger is the normalized input or its beginning up to a
    space. *)
Theorem demo_commands_never_shadow `{CaseFolding}
    (command : str) (entry : str * Command.t) :
  (findCommand DEMO_COMMANDS command = Some entry ↔
   entry ∈ DEMO_COMMANDS
   ∧ triggeredBy (normalize (toLowerCase (trim command))) (fst entry))
  ∧ (∀ entry',
       entry ∈ DEMO_COMMANDS → entry' ∈ DEMO_COMMANDS →
       triggeredBy (normalize (toLowerCase (trim command))) (fst entry) →
       triggeredBy (normalize (toLowerCase (trim command))) (fst entry') →
       entry = entry').
Proof.
  split; [|intros entry'; apply DEMO_COMMANDS_distinct].
  assert (∀ found, findCommand DEMO_COMMANDS command = Some found →
            found ∈ DEMO_COMMANDS
            ∧ triggeredBy (normalize (toLowerCase (trim command))) (fst found))
    as Hfound.
  { intros found (before & after & Htable & Hmatch & _)%findCommand_first.
    assert (found ∈ DEMO_COMMANDS) as Hin
      by (rewrite Htable, elem_of_app, elem_of_cons; auto).
    split; [done|]. apply matchesKey_triggeredBy in Hmatch.
    by rewrite DEMO_COMMANDS_keys in Hmatch. }
  split; [apply Hfound|]. intros [Hin Htriggered].
  destruct (findCommand DEMO_COMMANDS command) as [found|] eqn:Hfind.
  - destruct (Hfound found eq_refl) as [Hin' Htriggered'].
    f_equal. by apply (DEMO_COMMANDS_distinct
                         (normalize (toLowerCase (trim command)))).
  - unfold findCommand in Hfind. rewrite find_none in Hfind.
    specialize (Hfind entry Hin).
    rewrite <- (DEMO_COMMANDS_keys entry Hin) in Htriggered.
    apply matchesKey_triggeredBy in Htriggered. congruence.
Qed.

(** The keys of the table find their own entries. *)
Lemma DEMO_COMMANDS_keys_found `{CaseFolding} (n : nat) :
  (n < 5)%nat → findCommand DEMO_COMMANDS (fst (entryAt n)) = Some (entryAt n).
Proof.
  intros Hn. unfold findCommand.
  destruct n as [|[|[|[|[|n]]]]]; [| | | | |lia];
    (rewrite toLowerCase_ascii by ascii_text); vm_compute; reflexivity.
Qed.

Lemma DEMO_COMMANDS_keys_commands `{CaseFolding} (n : nat) :
  (n < 5)%nat → isCommand (fst (entryAt n)).
Proof.
  intros Hn. unfold isCommand.
  destruct n as [|[|[|[|[|n]]]]]; [| | | | |lia];
    (rewrite toLowerCase_ascii by ascii_text); vm_compute; split; discriminate.
Qed.

Lemma entryAt_elem (n : nat) : (n < 5)%nat → entryAt n ∈ DEMO_COMMANDS.
Proof.
  intros Hn. unfold entryAt.
  destruct (lookup_lt_is_Some_2 DEMO_COMMANDS n) as [entry Hentry]; [done|].
  rewrite Hentry. by apply list_elem_of_lookup_2 in Hentry.
Qed.

(** The suggestions are the keys of the table, in its order, and "clear". *)
Lemma SUGGESTIONS_keys (n : nat) (suggestion : str) :
  SUGGESTIONS !! n = Some suggestion →
  (n = 5%nat ∧ suggestion = js "clear")
  ∨ ((n < 5)%nat ∧ suggestion = fst (entryAt n)).
Proof.
  intros Hsuggestion.
  assert (n < 6)%nat as Hn by by apply lookup_lt_Some in Hsuggestion.
  destruct n as [|[|[|[|[|[|n]]]]]]; [..|lia];
    cbn [SUGGESTIONS lookup list_lookup] in Hsuggestion;
    injection Hsuggestion as <-;
    [right; split; [lia | vm_compute; reflexivity].. | by left].
Qed.

Lemma suggestion_click `{CaseFolding} (commands : list (str * Command.t))
    (now suggestion : str) (n : nat) (w : State) :
  isProcessing w = false → SUGGESTIONS !! n = Some suggestion →
  dispatch commands now (SuggestionClick n) w
  = setCurrentInput (Some suggestion) w.
Proof.
  intros Hidle Hsuggestion. unfold dispatch, handleSuggestionClick.
  by rewrite Hidle, Hsuggestion.
Qed.

(** X5: every suggestion button works. On an idle widget, a click on the
    suggestion and Enter either reset the transcript (the suggestion
    "clear") or run the entry of [DEMO_COMMANDS] with that key, whose
    output is revealed in full: a suggestion is never answered by
    "Command not found". *)
Theorem every_suggestion_is_answered `{CaseFolding}
    (w : State) (n : nat) (suggestion now now' : str) (nows : list str) :
  idle w → SUGGESTIONS !! n = Some suggestion →
  (suggestion = js "clear"
   ∧ run DEMO_COMMANDS w [(now, SuggestionClick n); (now, KeyDown Enter)]
     = setCurrentInput (Some (js "")) (setLines (λ _, [cleared now]) w))
  ∨ (∃ config,
       (suggestion, config) ∈ DEMO_COMMANDS
       ∧ findCommand DEMO_COMMANDS suggestion = Some (suggestion, config)
       ∧ (length nows = length (split 32 (Command.output config)) →
          run DEMO_COMMANDS w
            ((now, SuggestionClick n) :: (now, KeyDown Enter)
             :: ticks (now' :: nows))
          = settled w suggestion
              [inputLine now suggestion;
               outputLine now' (Command.output config)])).
Proof.
  intros [Hidle Htimers] Hsuggestion.
  destruct (SUGGESTIONS_keys n suggestion Hsuggestion) as [[-> ->]|[Hlt ->]].
  { left. split; [done|].
    rewrite run_cons. cbn [fst snd].
    rewrite (suggestion_click _ _ (js "clear")) by done.
    rewrite run_cons. cbn [fst snd run foldl].
    rewrite (enter_clear _ _ (js "clear")); [done| |done..].
    rewrite toLowerCase_ascii by ascii_text. reflexivity. }
  right. exists (snd (entryAt n)).
  assert ((fst (entryAt n), snd (entryAt n)) = entryAt n) as Hentry
    by by destruct (entryAt n).
  pose proof (DEMO_COMMANDS_keys_found n Hlt) as Hfound.
  rewrite Hentry. split_and!.
  - by apply entryAt_elem.
  - done.
  - intros Hlen. rewrite run_cons. cbn [fst snd].
    rewrite (suggestion_click _ _ (fst (entryAt n))) by done.
    rewrite (submission_settles DEMO_COMMANDS _ now now' (fst (entryAt n)) nows).
    + rewrite Hfound. unfold answer. by destruct (entryAt n).
    + done.
    + done.
    + by apply DEMO_COMMANDS_keys_commands.
    + rewrite Hfound. unfold pauses. destruct (entryAt n). simpl in *.
      by rewrite Hlen.
Qed.

Lemma every_suggestion_is_answered_witness :
  let t := js "09:00:00" in
  (js "version" = js "clear"
   ∧ run DEMO_COMMANDS (initial t t) [(t, SuggestionClick 4); (t, KeyDown Enter)]
     = setCurrentInput (Some (js "")) (setLines (λ _, [cleared t]) (initial t t)))
  ∨ (∃ config,
       (js "version", config) ∈ DEMO_COMMANDS
       ∧ findCommand DEMO_COMMANDS (js "version") = Some (js "version", config)
       ∧ (length (replicate 9 t) = length (split 32 (Command.output config)) →
          run DEMO_COMMANDS (initial t t)
            ((t, SuggestionClick 4) :: (t, KeyDown Enter)
             :: ticks (t :: replicate 9 t))
          = settled (initial t t) (js "version")
              [inputLine t (js "version");
               outputLine t (Command.output config)])).
Proof.
  intros t.
  apply (every_suggestion_is_answered (initial t t) 4 (js "version") t t
           (replicate 9 t)); [by split | reflexivity].
Defined.

(** ** History, transcript and cursor *)

(** X6: the history is only ever appended to. An event leaves it as it is,
    or it is Enter on a command, on a widget that is not processing, and
    adds that command at the end; nothing removes or rewrites an entry, a
    "clear" included. *)
Theorem history_is_append_only `{CaseFolding}
    (commands : list (str * Command.t)) (now : str) (e : Event) (w : State) :
  commandHistory (dispatch commands now e w) = commandHistory w
  ∨ (e = KeyDown Enter ∧ isProcessing w = false
     ∧ ∃ command,
         currentInput w = Some command ∧ isCommand command
         ∧ commandHistory (dispatch commands now e w)
           = commandHistory w ++ [command]).
Proof.
  destruct e as [key|value|n|n].
  1-3: edestruct (user_event_cases commands now) as [->|[Hidle Hcases]];
       [done | by left |].
  1-3: destruct Hcases as [(v & ->) | [(k & Hk & _ & ->)
                          |[(text & _ & _ & _ & ->)
                           |(text & He & Hinput & Hcommand & ->)]]];
       [by left
       |left; by destruct (arrow_frame commands now k w Hk) as (_ & _ & -> & _)
       |by left
       |right; split_and!; [done | done | by exists text]].
  destruct (timer_event_cases commands now n w) as [->|(rest & _ & ->)];
    [by left|].
  left.
  destruct (resume_cases now rest (fired n w))
    as [[command ->]|[(task & text & ->)|[(task & text & timestamp & ->)| ->]]];
    done.
Qed.

(** X7: the arrow keys, typing and the suggestion buttons never touch the
    transcript, the history, the processing flag or the pending timers. *)
Theorem browsing_and_typing_change_input_only `{CaseFolding}
    (commands : list (str * Command.t)) (now : str) (e : Event) (w : State) :
  e ≠ KeyDown Enter → (∀ n, e ≠ TimerFired n) →
  lines (dispatch commands now e w) = lines w
  ∧ commandHistory (dispatch commands now e w) = commandHistory w
  ∧ isProcessing (dispatch commands now e w) = isProcessing w
  ∧ timers (dispatch commands now e w) = timers w.
Proof.
  intros Henter Huser.
  destruct (user_event_cases commands now e w Huser) as [->|[Hidle Hcases]];
    [done|].
  destruct Hcases as [(v & ->) | [(k & Hk & _ & ->)
                     |[(text & He & _)|(text & He & _)]]];
    [done
    |destruct (arrow_frame commands now k w Hk) as (? & ? & ? & ?); by split_and!
    |done | done].
Qed.

Lemma browsing_and_typing_change_input_only_witness :
  let t := js "09:00:00" in
  let w := run DEMO_COMMANDS (initial t t) (submit (js "version") t (replicate 10 t)) in
  lines (dispatch DEMO_COMMANDS t (KeyDown ArrowUp) w) = lines w
  ∧ commandHistory (dispatch DEMO_COMMANDS t (KeyDown ArrowUp) w) = commandHistory w
  ∧ isProcessing (dispatch DEMO_COMMANDS t (KeyDown ArrowUp) w) = isProcessing w
  ∧ timers (dispatch DEMO_COMMANDS t (KeyDown ArrowUp) w) = timers w.
Proof.
  intros t w.
  apply (browsing_and_typing_change_input_only DEMO_COMMANDS t (KeyDown ArrowUp) w);
    [discriminate | intros n; discriminate].
Defined.

(** *** The first line *)

Lemma revealed_head (text timestamp : str) (first : TerminalLine)
    (rest : list TerminalLine) :
  type first = info →
  ∃ rest', revealed text timestamp (first :: rest) = first :: rest'.
Proof.
  intros Hinfo. unfold revealed.
  destruct (last (first :: rest)) as [l|] eqn:Hlast; [|by eauto].
  destruct (bool_decide (type l = output)) eqn:Houtput; [|by eauto].
  apply bool_decide_eq_true in Houtput.
  destruct rest as [|second rest]; [|by eexists].
  injection Hlast as <-. congruence.
Qed.

Lemma startsWithInfo_dispatch `{CaseFolding}
    (commands : list (str * Command.t)) (now : str) (e : Event) (w : State) :
  startsWithInfo w → startsWithInfo (dispatch commands now e w).
Proof.
  intros (first & rest & Hlines & Hinfo). unfold startsWithInfo.
  destruct e as [key|value|n|n].
  1-3: edestruct (user_event_cases commands now) as [->|[Hidle Hcases]];
       [done | by eauto |].
  1-3: destruct Hcases as [(v & ->) | [(k & Hk & _ & ->)
                          |[(text & _ & _ & _ & ->)|(text & _ & _ & _ & ->)]]];
       try (destruct (arrow_frame commands now k w Hk) as (-> & _));
       simpl; rewrite ?Hlines; by eauto.
  destruct (timer_event_cases commands now n w) as [->|(task & _ & ->)];
    [by eauto|].
  destruct (resume_cases now task (fired n w))
    as [[command ->]|[(task' & text & ->)|[(task' & text & timestamp & ->)| ->]]];
    simpl; rewrite ?Hlines; [by eauto | by eauto | | by eauto].
  destruct (revealed_head text timestamp first rest Hinfo) as [rest' ->].
  by eauto.
Qed.

(** X8: the transcript of a widget is never empty, and its first line is
    always of kind info: the welcome line, or the line of the last reset. *)
Theorem transcript_starts_with_info `{CaseFolding}
    (commands : list (str * Command.t)) (w : State) :
  reachable commands w →
  ∃ first rest, lines w = first :: rest ∧ type first = info.
Proof.
  induction 1 as [t0 t1|now e w _ IH].
  - by eexists _, _.
  - by apply startsWithInfo_dispatch.
Qed.

Lemma transcript_starts_with_info_witness :
  let t := js "09:00:00" in
  ∃ first rest,
    lines (run DEMO_COMMANDS (initial t t)
             (submit (js "version") t (replicate 10 t) ++ submit (js "clear") t []))
    = first :: rest ∧ type first = info.
Proof.
  intros t. apply (transcript_starts_with_info DEMO_COMMANDS).
  apply reachable_run. constructor.
Defined.

(** X9: ArrowUp and then ArrowDown come back to where they started. From
    an entry that is not the oldest, the cursor and the recalled entry are
    the same again; from an inactive cursor, with a history that is not
    empty, the cursor is inactive again and the input is empty, whatever
    had been typed in it. *)
Theorem arrow_up_then_down `{CaseFolding}
    (commands : list (str * Command.t)) (now now' : str) (w : State) :
  cursorValid w → commandHistory w ≠ [] → historyIndex w ≠ 0%Z →
  let w' := handleKeyDown commands now' ArrowDown
              (handleKeyDown commands now ArrowUp w) in
  historyIndex w' = historyIndex w
  ∧ commandHistory w' = commandHistory w
  ∧ currentInput w'
    = if (historyIndex w =? -1)%Z then Some (js "")
      else index (commandHistory w) (historyIndex w).
Proof.
  intros Hvalid Hhistory Hcursor w'.
  assert (0 < length (commandHistory w))%nat as Hlen
    by (destruct (commandHistory w); [done | simpl; lia]).
  set (newIndex := if (historyIndex w =? -1)%Z
                   then (Z.of_nat (length (commandHistory w)) - 1)%Z
                   else Z.max 0 (historyIndex w - 1)).
  assert (handleKeyDown commands now ArrowUp w
          = setCurrentInput (index (commandHistory w) newIndex)
              (setHistoryIndex newIndex w)) as Hup.
  { unfold handleKeyDown. by rewrite (proj2 (Nat.ltb_lt _ _) Hlen). }
  unfold w'. rewrite Hup, arrowDown_recalls; cbn [historyIndex setCurrentInput
    setHistoryIndex commandHistory]; unfold newIndex;
    destruct Hvalid as [Hinactive|Hactive].
  - rewrite Hinactive. cbn [Z.eqb Pos.eqb].
    by rewrite (proj2 (Z.leb_le _ _)) by lia.
  - rewrite (proj2 (Z.eqb_neq _ _)) by lia.
    rewrite (proj2 (Z.leb_gt _ _)) by lia.
    cbn [historyIndex commandHistory currentInput].
    by replace (Z.max 0 (historyIndex w - 1) + 1)%Z with (historyIndex w) by lia.
  - rewrite Hinactive. cbn [Z.eqb Pos.eqb]. lia.
  - rewrite (proj2 (Z.eqb_neq _ _)) by lia. lia.
Qed.

Lemma arrow_up_then_down_witness :
  let t := js "09:00:00" in
  let w := dispatch DEMO_COMMANDS t (Change (js "ver"))
             (run DEMO_COMMANDS (initial t t)
                (submit (js "version") t (replicate 10 t))) in
  let w' := handleKeyDown DEMO_COMMANDS t ArrowDown
              (handleKeyDown DEMO_COMMANDS t ArrowUp w) in
  historyIndex w' = historyIndex w
  ∧ commandHistory w' = commandHistory w
  ∧ currentInput w'
    = if (historyIndex w =? -1)%Z then Some (js "")
      else index (commandHistory w) (historyIndex w).
Proof.
  intros t w.
  apply (arrow_up_then_down DEMO_COMMANDS t t w);
    [left; vm_compute; reflexivity | vm_compute; discriminate
    |vm_compute; discriminate].
Defined.

(** X10: what waits for a timer always fits what the widget shows. In
    every state the widget can reach, a pending lookup carries the entry
    that [findCommand] gives for the command echoed in the last line and
    recorded last in the history; a pending reveal carries the words of
    the output of an entry of the table, has shown at least one and not
    more than all of them, and the last line is the output line with
    exactly the words shown so far, a space between two of them. *)
Theorem pending_task_is_consistent `{CaseFolding}
    (commands : list (str * Command.t)) (w : State) (task : Task) :
  reachable commands w → timers w !! 0%nat = Some task →
  timers w = [task] ∧ isProcessing w = true
  ∧ match task with
    | AfterLookupDelay matchedCommand command =>
        matchedCommand = findCommand commands command
        ∧ (∃ init now, lines w = init ++ [inputLine now command])
        ∧ last (commandHistory w) = Some command
    | AfterWordDelay words i text timestamp delay =>
        (∃ key config,
           (key, config) ∈ commands
           ∧ words = split 32 (Command.output config)
           ∧ delay = Command.delay config)
        ∧ (i < length words)%nat
        ∧ text = joinWords (take (S i) words)
        ∧ ∃ init, lines w = init ++ [outputLine timestamp text]
    end.
Proof.
  intros Hw Htask.
  destruct (oneTask_reachable commands w Hw) as [Hlen Hiff].
  assert (timers w = [task]) as Htimers.
  { destruct (timers w) as [|t [|t' ts]]; simpl in *; [done| |lia].
    by injection Htask as ->. }
  split_and!; [done | apply Hiff; by rewrite Htimers |].
  by apply (pendingConsistent_reachable commands w Hw task).
Qed.

Lemma pending_task_is_consistent_witness :
  let t := js "09:00:00" in
  let w := run DEMO_COMMANDS (initial t t) (submit (js "version") t [t; t; t]) in
  ∃ task, timers w = [task] ∧ isProcessing w = true.
Proof.
  intros t w.
  destruct (timers w !! 0%nat) as [task|] eqn:Htask; [|by vm_compute in Htask].
  exists task.
  destruct (pending_task_is_consistent DEMO_COMMANDS w task) as (? & ? & _);
    [apply reachable_run; constructor | done | done].
Defined.

(** X11: processing always ends, and takes as many timers as
    [remainingPauses] says: in every state the widget can reach, the
    processing flag stays set while fewer timers than that have fired, and
    once that many have fired the widget is idle. *)
Theorem processing_always_ends `{CaseFolding}
    (commands : list (str * Command.t)) (w : State) (nows : list str) :
  reachable commands w →
  ((length nows < remainingPauses w)%nat →
   isProcessing (run commands w (ticks nows)) = true)
  ∧ (length nows = remainingPauses w →
     idle (run commands w (ticks nows))).
Proof.
  intros Hw. pose proof (oneTask_reachable commands w Hw) as [Hlen Hiff].
  pose proof (pendingConsistent_reachable commands w Hw) as Hpending.
  unfold remainingPauses, pendingConsistent in *.
  destruct (timers w) as [|task rest] eqn:Htimers.
  { split; [simpl; lia|]. intros ->%nil_length_inv. split; [|done].
    simpl. destruct (isProcessing w); [|done]. by destruct (proj1 Hiff). }
  assert (rest = []) as -> by (destruct rest; [done | simpl in Hlen; lia]).
  assert (isProcessing w = true) as Hprocessing by by apply Hiff.
  specialize (Hpending task eq_refl).
  destruct task as [[[key config]|] command|words i text timestamp delay].
  - (* the pause of a lookup that found an entry *)
    assert (∀ now, dispatch commands now (TimerFired 0) w
                   = revealing w (lines w) (split 32 (Command.output config))
                       0 now (Command.delay config)) as Hfirst.
    { intros now. unfold dispatch. rewrite Htimers.
      cbn [lookup list_lookup resume]. rewrite reveal_starts.
      unfold revealing, await, setLines, fired.
      cbn [lines timers currentInput isProcessing commandHistory historyIndex].
      by rewrite Htimers, Hprocessing. }
    pose proof (split_nonempty 32 (Command.output config)) as Hwords.
    assert (0 < length (split 32 (Command.output config)))%nat as Hlength
      by (destruct (split 32 (Command.output config)); [done | simpl; lia]).
    cbn [pauses]. destruct nows as [|now nows].
    { split; [done | simpl; lia]. }
    unfold ticks. rewrite fmap_cons, run_cons. cbn [fst snd]. fold (ticks nows).
    rewrite Hfirst. simpl length.
    destruct (revealing_runs commands w (lines w)
                (split 32 (Command.output config)) 0 now
                (Command.delay config) nows Hlength) as [Hbusy Hdone].
    split; intros; [apply Hbusy | apply Hdone]; lia.
  - (* the pause of a lookup that found nothing *)
    cbn [pauses]. destruct nows as [|now [|now' nows]].
    + split; [done | simpl; lia].
    + split; [simpl; lia|]. intros _.
      unfold ticks. rewrite fmap_cons, run_cons. cbn [fst snd run foldl fmap list_fmap].
      unfold dispatch. rewrite Htimers. cbn [lookup list_lookup resume].
      split; [done|]. simpl. by rewrite Htimers.
    + split; simpl; lia.
  - (* a pause of the reveal *)
    destruct Hpending as (_ & Hi & -> & init & Hlines).
    rewrite (revealing_eta w init words i timestamp delay) by done.
    apply revealing_runs. done.
Qed.

Lemma processing_always_ends_witness :
  let t := js "09:00:00" in
  let w := run DEMO_COMMANDS (initial t t) (submit (js "version") t [t; t; t]) in
  remainingPauses w = 7%nat
  ∧ idle (run DEMO_COMMANDS w (ticks (replicate 7 t))).
Proof.
  intros t w. split; [reflexivity|].
  apply (processing_always_ends DEMO_COMMANDS w (replicate 7 t));
    [apply reachable_run; constructor | reflexivity].
Defined.

Lemma split_length (s : str) : length (split 32 s) = S (spaces s).
Proof.
  unfold spaces. induction s as [|c s IH]; [done|]. simpl split.
  rewrite filter_cons.
  destruct (N.eqb_spec c 32) as [->|Hc].
  - rewrite decide_True by done. simpl. by rewrite IH.
  - rewrite decide_False by done. rewrite <- IH.
    pose proof (split_nonempty 32 s). by destruct (split 32 s).
Qed.

Lemma split_words (s : str) : Forall (λ word, 32 ∉ word) (split 32 s).
Proof.
  induction s as [|c s IH]; simpl.
  - constructor; [by intros ?%elem_of_nil | constructor].
  - destruct (N.eqb_spec c 32) as [->|Hc].
    + constructor; [by intros ?%elem_of_nil | done].
    + pose proof (split_nonempty 32 s) as Hne.
      destruct (split 32 s) as [|word words]; [done|].
      apply Forall_cons in IH as [Hword Hwords]. constructor; [|done].
      intros [?|?]%elem_of_cons; [congruence | done].
Qed.

(** X15: how long a command keeps the widget busy. Right after Enter, a
    command that finds no entry waits for one timer; a command that finds
    an entry waits for two timers and one more for every space of the
    output, also for a space that follows another one; the words that are
    added one by one hold no space themselves. *)
Theorem reveal_takes_one_timer_per_space `{CaseFolding}
    (commands : list (str * Command.t)) (w : State) (now command : str) :
  idle w → currentInput w = Some command → isCommand command →
  match findCommand commands command with
  | Some (_, config) =>
      remainingPauses (dispatch commands now (KeyDown Enter) w)
      = (2 + spaces (Command.output config))%nat
      ∧ Forall (λ word, 32 ∉ word) (split 32 (Command.output config))
  | None => remainingPauses (dispatch commands now (KeyDown Enter) w) = 1%nat
  end.
Proof.
  intros [Hidle Htimers] Hinput Hcommand.
  rewrite (enter_command commands now command) by done.
  unfold remainingPauses, started. cbn [timers]. rewrite Htimers.
  cbn [app]. destruct (findCommand commands command) as [[key config]|]; [|done].
  split; [|apply split_words]. cbn [pauses]. by rewrite split_length.
Qed.

Lemma reveal_takes_one_timer_per_space_witness :
  let t := js "09:00:00" in
  let w := setCurrentInput (Some (js "version")) (initial t t) in
  match findCommand DEMO_COMMANDS (js "version") with
  | Some (_, config) =>
      remainingPauses (dispatch DEMO_COMMANDS t (KeyDown Enter) w)
      = (2 + spaces (Command.output config))%nat
      ∧ Forall (λ word, 32 ∉ word) (split 32 (Command.output config))
  | None => remainingPauses (dispatch DEMO_COMMANDS t (KeyDown Enter) w) = 1%nat
  end.
Proof.
  intros t w.
  apply (reveal_takes_one_timer_per_space DEMO_COMMANDS w t (js "version"));
    [by split | reflexivity | by split].
Defined.

Local Close Scope N_scope.

(** ** The cards of [Features] *)

Lemma newVisible_length (index : nat) (prev : list (option bool)) :
  length (newVisible index prev) = (length prev `max` S index)%nat.
Proof.
  unfold newVisible. destruct (Nat.ltb_spec index (length prev)).
  - rewrite length_insert. lia.
  - rewrite !length_app, length_replicate. simpl. lia.
Qed.

Lemma newVisible_lookup (index other : nat) (prev : list (option bool)) :
  shown (newVisible index prev) other
  = bool_decide (index = other) || shown prev other.
Proof.
  unfold shown, newVisible. destruct (Nat.ltb_spec index (length prev)) as [Hin|Hout].
  - destruct (decide (index = other)) as [->|Hne].
    + rewrite list_lookup_insert_eq by done. by rewrite bool_decide_eq_true_2.
    + rewrite list_lookup_insert_ne by done. by rewrite bool_decide_eq_false_2.
  - destruct (decide (index = other)) as [<-|Hne].
    + rewrite bool_decide_eq_true_2 by done.
      rewrite lookup_app_r by done.
      rewrite lookup_app_r by (rewrite length_replicate; lia).
      rewrite length_replicate.
      by replace (index - length prev - (index - length prev))%nat with 0%nat by lia.
    + rewrite bool_decide_eq_false_2 by done. simpl.
      destruct (Nat.lt_ge_cases other (length prev)) as [Hother|Hother].
      * by rewrite lookup_app_l.
      * rewrite lookup_app_r, (lookup_ge_None_2 prev other) by done.
        destruct (Nat.lt_ge_cases other index) as [Hhole|Hpast].
        -- rewrite lookup_app_l by (rewrite length_replicate; lia).
           by rewrite lookup_replicate_2 by lia.
        -- rewrite lookup_app_r by (rewrite length_replicate; lia).
           rewrite length_replicate.
           by rewrite lookup_ge_None_2 by (simpl; lia).
Qed.

(** X12: marking a card visible makes that card visible and changes no
    other card, also when the index is beyond the end of the array: the
    array then grows to reach it, and the cells in between read as not
    visible. *)
Theorem marking_a_card_visible (index : nat) (prev : list (option bool)) :
  (∀ other, shown (newVisible index prev) other
            = bool_decide (index = other) || shown prev other)
  ∧ length (newVisible index prev) = (length prev `max` S index)%nat.
Proof.
  split; [intros other; apply newVisible_lookup | apply newVisible_length].
Qed.

(** X13: after a callback of the observer a card is visible exactly when
    it was visible before or an entry that intersects carries its index
    (index 0 for an entry without the attribute). So cards only ever
    become visible, and the order of the entries does not matter. *)
Theorem cards_visible_after_callback (entries : list ObserverEntry)
    (prev : list (option bool)) (card : nat) :
  shown (onIntersect entries prev) card = true ↔
  shown prev card = true
  ∨ ∃ entry, entry ∈ entries ∧ isIntersecting entry = true
             ∧ default 0%nat (dataIndex entry) = card.
Proof.
  unfold onIntersect. revert prev.
  induction entries as [|entry entries IH]; intros prev; simpl.
  - split; [by left|]. intros [?|(entry & ?%elem_of_nil & _)]; done.
  - rewrite IH. destruct (isIntersecting entry) eqn:Hentry.
    + rewrite newVisible_lookup, orb_true_iff, bool_decide_eq_true. split.
      * intros [[Hhere|Hprev]|(e & He & Hi & Hd)].
        -- right. exists entry. split_and!; [by left | done | done].
        -- by left.
        -- right. exists e. split_and!; [by right | done | done].
      * intros [Hprev|(e & [->|He]%elem_of_cons & Hi & Hd)].
        -- left. by right.
        -- left. by left.
        -- right. by exists e.
    + split.
      * intros [Hprev|(e & He & Hi & Hd)]; [by left|].
        right. exists e. split_and!; [by right | done | done].
      * intros [Hprev|(e & [->|He]%elem_of_cons & Hi & Hd)];
          [by left | congruence | right; by exists e].
Qed.

(** ** The copy mark of [CodeExamples] *)

(** X14: with at least one example, [examples[activeTab]] is always an
    entry; the check mark is only ever shown for an entry, and only while
    a timer that will remove it is pending, so it never stays for good;
    and a write that fails changes nothing that is shown. *)
Theorem copy_mark_is_always_reset (count : nat) (s : Examples) :
  (0 < count)%nat → examplesReachable count s →
  (activeTab s < count)%nat
  ∧ (∀ index, copiedIndex s = Some index →
       (index < count)%nat ∧ (0 < resets s)%nat)
  ∧ (resets s = 0%nat → copiedIndex s = None)
  ∧ (∀ n, copiedIndex (examplesStep count (WriteSettled n false) s) = copiedIndex s
          ∧ activeTab (examplesStep count (WriteSettled n false) s) = activeTab s).
Proof.
  intros Hcount Hs.
  assert ((activeTab s < count)%nat
          ∧ Forall (λ index, index < count)%nat (writes s)
          ∧ (∀ index, copiedIndex s = Some index →
               (index < count)%nat ∧ (0 < resets s)%nat))
    as (Htab & _ & Hmark).
  { induction Hs as [|e s _ (Htab & Hwrites & Hmark)].
    { simpl. split_and!; [lia | constructor | done]. }
    destruct e as [index| |n ok|]; simpl.
    - destruct (Nat.ltb_spec index count); simpl; by split_and!.
    - split_and!; [done | |done]. apply Forall_app. split; [done|].
      by constructor.
    - destruct (writes s !! n) as [index|] eqn:Hwrite; [|by split_and!].
      assert (index < count)%nat as Hindex
        by (rewrite Forall_lookup in Hwrites; by apply (Hwrites n)).
      assert (Forall (λ index, index < count)%nat (delete n (writes s)))
        as Hdeleted by (by apply Forall_delete).
      destruct ok; simpl; split_and!; try done.
      intros ? [= <-]. split; [done | lia].
    - destruct (resets s) as [|pending] eqn:Hresets; simpl;
        (split_and!; [done | done |]); [|done].
      intros index Hcopied. destruct (Hmark index Hcopied). lia. }
  split_and!; [done | done | |].
  - intros Hresets. destruct (copiedIndex s) as [index|] eqn:Hcopied; [|done].
    destruct (Hmark index eq_refl). lia.
  - intros n. simpl. by destruct (writes s !! n).
Qed.

Lemma copy_mark_is_always_reset_witness :
  let s := examplesStep 4 (WriteSettled 0 true)
             (examplesStep 4 CopyClicked (examplesStep 4 (TabClicked 2) mounted)) in
  copiedIndex s = Some 2%nat ∧ (2 < 4)%nat ∧ (0 < resets s)%nat.
Proof.
  intros s.
  assert (examplesReachable 4 s) as Hs by (repeat constructor).
  destruct (copy_mark_is_always_reset 4 s) as (_ & Hmark & _); [lia | done |].
  split; [reflexivity|]. by apply Hmark.
Defined.

Local Open Scope N_scope.
